(** * Local Pro Mode: candidate fan-out, retry and synthesis

    A shallow embedding of [local_pro_mode.py] (class [LocalProMode]) and
    the properties of its pipeline: [_one_completion] (retry with
    backoff), [_build_synthesis_messages] (prompt assembly) and [run]
    (parallel dispatch, filtering, synthesis).

    Modelling choices.
    - A Python [str] is a [string]; a character is a code point below 256.
    - [n_runs] is a Python [int], hence a [Z].
    - Float literals (0.5, 0.9, 0.2) are rationals; [delay *= 2] is [Qmult].
    - The completion service is outside the program.  A [backend] fixes
      what every call the program can make gives back; a call is named by
      its place in the program (dispatch unit and attempt, or the
      synthesis call) and carries its request.
    - The exceptions are instances of [Exception]: the ones the two
      [raise] statements of [run] build, and the ones that come out of a
      client call.
    - [print] statements are left out; requests and sleeps are logged.
    - [concurrent.futures] is library code: the executor with
      [as_completed] is a parameter that yields the entries of
      [fut_to_idx] in some order; the bounded worker pool itself is a
      step relation ([pool_step]) that follows the specification.
    - The [OpenAI] constructor is library code: a parameter that gives a
      client or raises. *)

From Stdlib Require Import QArith Sorted.
From stdpp Require Import base relations list strings pretty.

Local Open Scope string_scope.
Local Open Scope Z_scope.

(** ** Configuration *)

Definition BASE_URL : string := "http://localhost:1234/api/v0".
Definition MODEL : string := "qwen3-4b-thinking-2507".
Definition MAX_COMPLETION_TOKENS : Z := 30000.

(** ** Requests, responses and exceptions *)

Record message := Message { role : string; content : string }.

Record request := Request {
  req_model : string;
  req_messages : list message;
  req_temperature : Q;
  req_max_tokens : Z;
  req_top_p : Z;
  req_stream : bool
}.

(** What a client call and the reading of its response give: the text
    [resp.choices[0].message.content], or the exception raised on the
    way. *)
Inductive response :=
  | Content (text : string)
  | Fault (err : string).

(** The place of a call in the program. *)
Inductive call_site :=
  | CandidateCall (unit attempt : nat)
  | SynthesisCall.

Definition backend := call_site → request → response.

Inductive exn :=
  | ValueError (msg : string)
  | RuntimeError (msg : string)
  | ClientError (err : string).

Inductive result (A : Type) :=
  | Returns (a : A)
  | Raises (e : exn).
Arguments Returns {A} a.
Arguments Raises {A} e.

(** Observable effects: requests sent to the service and sleeps. *)
Inductive event :=
  | Send (site : call_site) (req : request)
  | Sleep (delay : Q).

Definition log := list event.

Record LocalProMode := {
  model : string;
  base_url : string;
  client : backend
}.

(** [x or d] for an optional [str]: [None] and the empty string are
    false. *)
Definition or_default (x : option string) (d : string) : string :=
  match x with
  | Some (String _ _ as v) => v
  | _ => d
  end.

(** [LocalProMode.__init__]; [service] stands for what [_make_client]
    connects to. *)
Definition init (model_name base_url_arg : option string) (service : backend)
  : LocalProMode :=
  {| model := or_default model_name MODEL;
     base_url := or_default base_url_arg BASE_URL;
     client := service |}.

(** ** [_one_completion] *)

(** How control leaves [_one_completion]: the [return] inside the [try],
    the bare [raise] of the handler, or the [return ""] after the loop. *)
Inductive completion_exit :=
  | ExitResponse (text : string)
  | ExitReraise (err : string)
  | ExitTrailing.

Definition completion_request (self : LocalProMode) (prompt : string)
    (temperature : Q) : request :=
  {| req_model := model self;
     req_messages := [Message "user" prompt];
     req_temperature := temperature;
     req_max_tokens := MAX_COMPLETION_TOKENS;
     req_top_p := 1;
     req_stream := false |}.

(** The [for attempt in range(3)] loop, over the attempts still to make. *)
Fixpoint completion_loop (self : LocalProMode) (unit : nat) (prompt : string)
    (temperature : Q) (attempts : list nat) (delay : Q)
  : completion_exit * log :=
  match attempts with
  | [] => (ExitTrailing, [])
  | attempt :: rest =>
    let req := completion_request self prompt temperature in
    let site := CandidateCall unit attempt in
    match client self site req with
    | Content text => (ExitResponse text, [Send site req])
    | Fault err =>
      if Nat.eqb attempt 2 then (ExitReraise err, [Send site req])
      else
        let '(ex, l) :=
          completion_loop self unit prompt temperature rest (delay * 2)%Q in
        (ex, Send site req :: Sleep delay :: l)
    end
  end.

Definition one_completion_exit (self : LocalProMode) (unit : nat)
    (prompt : string) (temperature : Q) : completion_exit * log :=
  completion_loop self unit prompt temperature (seq 0 3) 0.5%Q.

Definition exit_result (ex : completion_exit) : result string :=
  match ex with
  | ExitResponse text => Returns text
  | ExitReraise err => Raises (ClientError err)
  | ExitTrailing => Returns ""
  end.

(** [_one_completion], run by dispatch unit [unit]. *)
Definition one_completion (self : LocalProMode) (unit : nat)
    (prompt : string) (temperature : Q) : result string * log :=
  let '(ex, l) := one_completion_exit self unit prompt temperature in
  (exit_result ex, l).

(** ** Strings: [str.strip], truthiness, [str.join], [str(int)] *)

Definition nl : string := String (Ascii.ascii_of_nat 10) EmptyString.

(** [str.isspace] on one character (code points below 256). *)
Definition isspace (c : Ascii.ascii) : bool :=
  let k := Ascii.nat_of_ascii c in
  ((9 <=? k) && (k <=? 13) || (28 <=? k) && (k <=? 32)
   || (k =? 133) || (k =? 160))%nat.

Fixpoint lstrip (s : string) : string :=
  match s with
  | EmptyString => EmptyString
  | String c s' => if isspace c then lstrip s' else s
  end.

Fixpoint rstrip (s : string) : string :=
  match s with
  | EmptyString => EmptyString
  | String c s' =>
    match rstrip s' with
    | EmptyString => if isspace c then EmptyString else String c EmptyString
    | r => String c r
    end
  end.

Definition strip (s : string) : string := rstrip (lstrip s).

(** Truth value of a [str]: non-empty. *)
Definition truthy (s : string) : bool :=
  match s with
  | EmptyString => false
  | String _ _ => true
  end.

(** The filter condition [c and c.strip()]. *)
Definition usable (c : string) : bool :=
  if truthy c then truthy (strip c) else false.

(** [sep.join(parts)] *)
Definition join (sep : string) (parts : list string) : string :=
  String.concat sep parts.

(** [str(k)] for a non-negative [int]. *)
Definition str_of_nat (k : nat) : string := pretty k.

(** ** [_build_synthesis_messages] *)

Definition cand_block (i : nat) (txt : string) : string :=
  "<cand " +:+ str_of_nat (i + 1) +:+ ">" +:+ nl +:+ txt +:+ nl
  +:+ "</cand " +:+ str_of_nat (i + 1) +:+ ">".

Definition synthesis_system : string :=
  "You are an expert editor. Synthesize ONE best answer from the candidate "
  +:+ "answers provided, merging strengths, correcting errors, and removing repetition. "
  +:+ "Do not mention the candidates or the synthesis process. Be decisive and clear.".

Definition build_synthesis_messages (candidates : list string)
  : list message :=
  let numbered := join (nl +:+ nl) (imap cand_block candidates) in
  let system := synthesis_system in
  let user :=
    "You are given " +:+ str_of_nat (length candidates)
    +:+ " candidate answers delimited by <cand i> tags." +:+ nl +:+ nl
    +:+ numbered +:+ nl +:+ nl +:+ "Return the single best final answer." in
  [Message "system" system; Message "user" user].

(** ** [run] *)

Record RunResult := { final : string; candidates : list string }.

(** What a run did to the outside: the log of each dispatch unit (units
    run in parallel, so their logs are kept apart) and of the synthesis
    stage. *)
Record effects := { unit_logs : list log; synth_log : log }.

Definition no_effects : effects := {| unit_logs := []; synth_log := [] |}.

(** A finished future: what [fut.result()] gives, and what the unit did. *)
Definition future : Type := result string * log.

(** [ThreadPoolExecutor(max_workers=...)] with [as_completed], library
    code: for a number of worker threads and the dict of submitted
    futures, the entries in the order in which their futures complete. *)
Definition executor : Type :=
  Z → list (future * nat) → list (future * nat).

(** The dict [fut_to_idx]: one entry per [i] in [range(n_runs)]. *)
Definition fut_to_idx (self : LocalProMode) (prompt : string) (n : nat)
  : list (future * nat) :=
  (λ i, (one_completion self i prompt 0.9%Q, i)) <$> seq 0 n.

(** The body of the [for fut in cf.as_completed(fut_to_idx)] loop.  The
    index comes from [range(n_runs)], so the assignment is in range. *)
Definition record_outcome (candidates : list string) (entry : future * nat)
  : list string :=
  let '(fut, i) := entry in
  match fst fut with
  | Returns text => <[i:=text]> candidates
  | Raises _ => <[i:=""]> candidates
  end.

Definition synthesis_request (self : LocalProMode) (filtered : list string)
  : request :=
  {| req_model := model self;
     req_messages := build_synthesis_messages filtered;
     req_temperature := 0.2%Q;
     req_max_tokens := MAX_COMPLETION_TOKENS;
     req_top_p := 1;
     req_stream := false |}.

Definition all_failed_msg : string := "All candidate generations failed.".

(** The candidates array once the [with] block is left. *)
Definition dispatch (self : LocalProMode)
    (as_completed : list (future * nat) → list (future * nat))
    (prompt : string) (n : nat) : list string :=
  foldl record_outcome (replicate n "")
        (as_completed (fut_to_idx self prompt n)).

Definition run (self : LocalProMode) (ex : executor)
    (prompt : string) (n_runs : Z) : result RunResult * effects :=
  if n_runs <? 1 then (Raises (ValueError "n_runs must be >= 1"), no_effects)
  else
    let max_workers := Z.min n_runs 16 in
    let n := Z.to_nat n_runs in
    let candidates := dispatch self (ex max_workers) prompt n in
    let ulogs := (λ entry, snd (fst entry)) <$> fut_to_idx self prompt n in
    let filtered := List.filter usable candidates in
    match filtered with
    | [] =>
      (Raises (RuntimeError all_failed_msg),
       {| unit_logs := ulogs; synth_log := [] |})
    | _ :: _ =>
      let req := synthesis_request self filtered in
      let fx := {| unit_logs := ulogs; synth_log := [Send SynthesisCall req] |} in
      match client self SynthesisCall req with
      | Fault err => (Raises (ClientError err), fx)
      | Content text =>
        (Returns {| final := text; candidates := candidates |}, fx)
      end
    end.

(** * Vocabulary of the statements *)

(** ** Strings and logs *)

(** Empty or made of whitespace only. *)
Fixpoint blank (s : string) : bool :=
  match s with
  | EmptyString => true
  | String c s' => isspace c && blank s'
  end.

Definition is_send (ev : event) : bool :=
  match ev with
  | Send _ _ => true
  | Sleep _ => false
  end.

Definition is_synthesis_send (ev : event) : bool :=
  match ev with
  | Send SynthesisCall _ => true
  | _ => false
  end.

(** Number of completion attempts a log shows. *)
Definition attempts_made (l : log) : nat := length (List.filter is_send l).

(** The sleeps of a log, in order. *)
Definition waits (l : log) : list Q :=
  omap (λ ev, match ev with Sleep d => Some d | Send _ _ => None end) l.

(** A log that starts and ends with a request and has exactly one sleep
    between two consecutive requests. *)
Fixpoint spaced (l : log) : bool :=
  match l with
  | [Send _ _] => true
  | Send _ _ :: Sleep _ :: rest => spaced rest
  | _ => false
  end.

Definition backoff : list Q := [0.5; 1.0]%Q.

(** Requests of the synthesis stage over all the logs of a run. *)
Definition synthesis_sends (fx : effects) : nat :=
  length (List.filter is_synthesis_send (concat (unit_logs fx) ++ synth_log fx)).

(** ** The synthesis body as the specification words it *)

(** One delimited block: the text between [<cand label>] and
    [</cand label>]. *)
Definition spec_block (label : nat) (txt : string) : string :=
  "<cand " +:+ str_of_nat label +:+ ">" +:+ nl +:+ txt +:+ nl
  +:+ "</cand " +:+ str_of_nat label +:+ ">".

(** One block per candidate, in the order given, labelled from [label]
    on, with a blank line between two blocks. *)
Fixpoint spec_blocks (label : nat) (cands : list string) : string :=
  match cands with
  | [] => ""
  | txt :: rest =>
    match rest with
    | [] => spec_block label txt
    | _ :: _ =>
      spec_block label txt +:+ nl +:+ nl +:+ spec_blocks (S label) rest
    end
  end.

(** ** Dispatch *)

(** What the loop writes into the slot of a finished future. *)
Definition slot_text (fut : future) : string :=
  match fst fut with
  | Returns text => text
  | Raises _ => ""
  end.

(** [as_completed] yields every entry of the dict once, in some order. *)
Definition yields_each_once
    (as_completed : list (future * nat) → list (future * nat)) : Prop :=
  ∀ entries, as_completed entries ≡ₚ entries.

Definition completes_each_once (ex : executor) : Prop :=
  ∀ workers, yields_each_once (ex workers).

(** Two executors: last submitted first, and in submission order. *)
Definition lifo : executor := λ _ entries, reverse entries.
Definition fifo : executor := λ _ entries, entries.

(** The entry of unit [i] as the claim words it. *)
Definition claimed_entry (self : LocalProMode) (prompt : string) (i : nat)
    (entry : string) : Prop :=
  (∃ t, fst (one_completion self i prompt 0.9) = Returns t
        ∧ t ≠ "" ∧ entry = t)
  ∨ (∃ e, fst (one_completion self i prompt 0.9) = Raises e ∧ entry = "").

(** The entry of unit [i] as the code fills it. *)
Definition recorded_entry (self : LocalProMode) (prompt : string) (i : nat)
    (entry : string) : Prop :=
  (∃ t, fst (one_completion self i prompt 0.9) = Returns t ∧ entry = t)
  ∨ (∃ e, fst (one_completion self i prompt 0.9) = Raises e ∧ entry = "").

Definition unit_logs_of (self : LocalProMode) (prompt : string) (n : nat)
  : list log :=
  (λ entry, snd (fst entry)) <$> fut_to_idx self prompt n.

Definition value_error_msg : string := "n_runs must be >= 1".

(** ** Services used as examples *)

(** The scenario of the specification: three units, unit 1 fails all its
    attempts, units 0 and 2 answer at once. *)
Definition scenario_backend : backend :=
  λ site _,
    match site with
    | CandidateCall 0 _ => Content "A"
    | CandidateCall 2 _ => Content "B"
    | CandidateCall _ _ => Fault "backend down"
    | SynthesisCall => Content "S"
    end.

Definition scenario : LocalProMode := init None None scenario_backend.

(** A service whose unit 1 answers with the empty text. *)
Definition empty_reply_backend : backend :=
  λ site _,
    match site with
    | CandidateCall 1 _ => Content ""
    | CandidateCall _ _ => Content "A"
    | SynthesisCall => Content "S"
    end.

(** A service that is down for every call. *)
Definition down_backend : backend := λ _ _, Fault "backend down".

(** A service that answers every call with a single space. *)
Definition space_backend : backend := λ _ _, Content " ".

(** A service whose unit 0 answers with a single space and whose other
    units answer with a text. *)
Definition padded_backend : backend :=
  λ site _,
    match site with
    | CandidateCall 0 _ => Content " "
    | CandidateCall _ _ => Content "A"
    | SynthesisCall => Content "S"
    end.

(** Five units, units 1 and 3 down: three blocks, labelled 1, 2, 3. *)
Definition two_down_backend : backend :=
  λ site _,
    match site with
    | CandidateCall 0 _ => Content "A"
    | CandidateCall 2 _ => Content "B"
    | CandidateCall 4 _ => Content "C"
    | CandidateCall _ _ => Fault "backend down"
    | SynthesisCall => Content "S"
    end.

(** ** The worker pool *)

(** Where a worker stands in [_one_completion]. *)
Inductive pc :=
  | LoopHead (attempts : list nat) (delay : Q)
  | Awaiting (attempt : nat) (rest : list nat) (delay : Q)
  | Sleeping (rest : list nat) (delay : Q).

Record worker := Worker { w_unit : nat; w_pc : pc }.

(** Modelled from the spec: the state of the bounded worker pool of its
    sections 5 and 9 (in the source the library class
    [ThreadPoolExecutor], which is not under src/): the units submitted
    and not yet started, the units an execution unit is running, and the
    finished futures with their outcome, the last finished first. *)
Record pool := Pool {
  queue : list nat;
  running : list worker;
  finished : list (nat * result string)
}.

(** All of [range(n_runs)] submitted, nothing started. *)
Definition submitted (n : nat) : pool :=
  {| queue := seq 0 n; running := []; finished := [] |}.

Definition awaiting (w : worker) : bool :=
  match w_pc w with
  | Awaiting _ _ _ => true
  | _ => false
  end.

(** Requests sent and not yet answered. *)
Definition in_flight (s : pool) : nat :=
  length (List.filter awaiting (running s)).

(** Modelled from the spec: one step of the bounded worker pool of its
    sections 4.1, 5 and 9 (in the source the library class
    [ThreadPoolExecutor], which is not under src/): [cap] parallel
    execution units, the requests beyond the cap waiting in a queue,
    every unit run to a terminal state, no unit touching another.  A
    queued unit starts when an execution unit is free; a running unit
    goes through the statements of [_one_completion] as the source has
    them, one request at a time. *)
Inductive pool_step (self : LocalProMode) (prompt : string) (cap : nat)
  : pool → pool → Prop :=
  | step_start i q ws fin :
      (length ws < cap)%nat →
      pool_step self prompt cap
        (Pool (i :: q) ws fin)
        (Pool q (ws ++ [Worker i (LoopHead (seq 0 3) 0.5%Q)]) fin)
  | step_send i a rest d q ws1 ws2 fin :
      pool_step self prompt cap
        (Pool q (ws1 ++ Worker i (LoopHead (a :: rest) d) :: ws2) fin)
        (Pool q (ws1 ++ Worker i (Awaiting a rest d) :: ws2) fin)
  | step_trailing i d q ws1 ws2 fin :
      pool_step self prompt cap
        (Pool q (ws1 ++ Worker i (LoopHead [] d) :: ws2) fin)
        (Pool q (ws1 ++ ws2) ((i, Returns "") :: fin))
  | step_content i a rest d text q ws1 ws2 fin :
      client self (CandidateCall i a) (completion_request self prompt 0.9%Q)
      = Content text →
      pool_step self prompt cap
        (Pool q (ws1 ++ Worker i (Awaiting a rest d) :: ws2) fin)
        (Pool q (ws1 ++ ws2) ((i, Returns text) :: fin))
  | step_reraise i a rest d err q ws1 ws2 fin :
      client self (CandidateCall i a) (completion_request self prompt 0.9%Q)
      = Fault err →
      a = 2%nat →
      pool_step self prompt cap
        (Pool q (ws1 ++ Worker i (Awaiting a rest d) :: ws2) fin)
        (Pool q (ws1 ++ ws2) ((i, Raises (ClientError err)) :: fin))
  | step_retry i a rest d err q ws1 ws2 fin :
      client self (CandidateCall i a) (completion_request self prompt 0.9%Q)
      = Fault err →
      a ≠ 2%nat →
      pool_step self prompt cap
        (Pool q (ws1 ++ Worker i (Awaiting a rest d) :: ws2) fin)
        (Pool q (ws1 ++ Worker i (Sleeping rest d) :: ws2) fin)
  | step_wake i rest d q ws1 ws2 fin :
      pool_step self prompt cap
        (Pool q (ws1 ++ Worker i (Sleeping rest d) :: ws2) fin)
        (Pool q (ws1 ++ Worker i (LoopHead rest (d * 2)%Q) :: ws2) fin).

(** Every unit is queued, running or finished. *)
Definition accounted (n : nat) (s : pool) : Prop :=
  queue s ++ (w_unit <$> running s) ++ (fst <$> finished s) ≡ₚ seq 0 n.

(** What the rest of [_one_completion] gives from a program point. *)
Definition resume (self : LocalProMode) (prompt : string) (w : worker)
  : result string :=
  let loop := completion_loop self (w_unit w) prompt 0.9%Q in
  exit_result
    (fst (match w_pc w with
          | LoopHead attempts d => loop attempts d
          | Awaiting a rest d => loop (a :: rest) d
          | Sleeping rest d => loop rest (d * 2)%Q
          end)).

Definition on_course (self : LocalProMode) (prompt : string) (s : pool)
  : Prop :=
  Forall (λ w, resume self prompt w
               = fst (one_completion self (w_unit w) prompt 0.9%Q))
         (running s)
  ∧ Forall (λ entry, snd entry
                     = fst (one_completion self (fst entry) prompt 0.9%Q))
           (finished s).

(** [run] asks its executor for [w] workers: a run on [n_runs] is the
    same for two executors that do the same with [w] workers, whatever
    they do with another number. *)
Definition asks_for_workers (prompt : string) (n_runs w : Z) : Prop :=
  ∀ (self : LocalProMode) (ex ex' : executor),
    (∀ entries, ex' w entries = ex w entries) →
    run self ex' prompt n_runs = run self ex prompt n_runs.

(** A service that answers every call with the same text. *)
Definition echo_backend : backend := λ _ _, Content "A".

(** An executor that works with [w] workers only: with another number
    no future ever completes. *)
Definition only_with (w : Z) : executor :=
  λ workers entries, if decide (workers = w) then entries else [].

(** The entries of [fut_to_idx] in the order in which a pool finished
    their futures. *)
Definition completion_order (self : LocalProMode) (prompt : string) (s : pool)
  : list (future * nat) :=
  (λ done, ((snd done, snd (one_completion self (fst done) prompt 0.9%Q)),
            fst done))
  <$> reverse (finished s).

(** The executor that completes the futures in the order a pool did. *)
Definition replay (self : LocalProMode) (prompt : string) (s : pool)
  : executor :=
  λ _ _, completion_order self prompt s.

(** The first [k] units with their first request in flight, the others
    waiting. *)
Definition all_sending (n k : nat) : pool :=
  {| queue := seq k (n - k);
     running := (λ i, Worker i (Awaiting 0 [1; 2]%nat 0.5%Q)) <$> seq 0 k;
     finished := [] |}.

(** Work left for a worker and in a pool; every step uses some up, so
    the pool comes to rest. *)
Definition worker_work (w : worker) : nat :=
  match w_pc w with
  | LoopHead attempts _ => 3 * length attempts + 1
  | Awaiting _ rest _ => 3 * length rest + 3
  | Sleeping rest _ => 3 * length rest + 2
  end%nat.

Definition work_left (s : pool) : nat :=
  (11 * length (queue s) + sum_list_with worker_work (running s))%nat.

(** ** [main] *)

(** The namespace [parser.parse_args()] returns. *)
Record Namespace := {
  arg_prompt : string;
  arg_num_candidates : Z;
  arg_model : string;
  arg_url : string;
  arg_show_candidates : bool
}.

(** [str(e)]; the payload of a client error is its text. *)
Definition exn_str (e : exn) : string :=
  match e with
  | ValueError msg => msg
  | RuntimeError msg => msg
  | ClientError err => err
  end.

(** [s * k] on strings. *)
Definition str_mul (s : string) (k : nat) : string :=
  String.concat "" (replicate k s).

(** The two [print] calls for a shown candidate. *)
Definition candidate_lines (shown : nat * string) : list string :=
  [nl +:+ "--- Candidate " +:+ str_of_nat (fst shown) +:+ " ---"; snd shown].

(** The loop [for i, candidate in enumerate(result["candidates"], 1)] of
    [main], with [i] the number of the head of [candidates]: the
    arguments of its [print] calls, in order. *)
Fixpoint show_candidates (i : nat) (candidates : list string) : list string :=
  match candidates with
  | [] => []
  | candidate :: rest =>
    ((if usable candidate then candidate_lines (i, candidate) else [])
     ++ show_candidates (S i) rest)%list
  end.

(** What [main] leaves behind: the arguments of its own [print] calls to
    standard output (the lines [run] prints come before them) and to
    standard error, the exit status, and the effects of the run. *)
Record process := {
  main_stdout : list string;
  main_stderr : list string;
  exit_code : Z;
  main_effects : effects
}.

(** What the [OpenAI] constructor gives: a client, or the exception it
    raises (a base URL it cannot use, for one). *)
Inductive connection :=
  | Connected (service : backend)
  | Refused (err : string).

(** The [OpenAI] class, library code: from [base_url] and [api_key]. *)
Definition openai : Type := string → string → connection.

(** [_make_client], on the [base_url] that [__init__] has just set. *)
Definition make_client (OpenAI : openai) (base_url : string) : connection :=
  OpenAI base_url "not-needed".

(** [LocalProMode(model_name, base_url)]: [__init__] sets the two
    fields and ends with [_make_client], whose exception it lets
    through. *)
Definition construct (OpenAI : openai) (model_name base_url_arg : option string)
  : result LocalProMode :=
  match make_client OpenAI (or_default base_url_arg BASE_URL) with
  | Connected service => Returns (init model_name base_url_arg service)
  | Refused err => Raises (ClientError err)
  end.

(** [main], after [parser.parse_args()]: the body of its [try] and its
    handler. *)
Definition main (OpenAI : openai) (ex : executor) (args : Namespace)
  : process :=
  match construct OpenAI (Some (arg_model args)) (Some (arg_url args)) with
  | Raises e =>
    {| main_stdout := []; main_stderr := ["Error: " +:+ exn_str e];
       exit_code := 1; main_effects := no_effects |}
  | Returns pro_mode =>
    match run pro_mode ex (arg_prompt args) (arg_num_candidates args) with
    | (Returns result, fx) =>
      let answer :=
        [nl +:+ str_mul "=" 50; "FINAL SYNTHESIZED ANSWER:"; str_mul "=" 50;
         final result] in
      let shown :=
        if arg_show_candidates args then
          ([nl +:+ str_mul "=" 50; "CANDIDATE RESPONSES:"; str_mul "=" 50]
           ++ show_candidates 1 (candidates result))%list
        else [] in
      {| main_stdout := (answer ++ shown)%list; main_stderr := [];
         exit_code := 0; main_effects := fx |}
    | (Raises e, fx) =>
      {| main_stdout := []; main_stderr := ["Error: " +:+ exn_str e];
         exit_code := 1; main_effects := fx |}
    end
  end.

(** An [OpenAI] constructor that always gives the client [service]. *)
Definition always (service : backend) : openai := λ _ _, Connected service.

(** An [OpenAI] constructor that refuses a base URL whose port is not a
    number, as the real one does. *)
Definition port_checking (service : backend) : openai :=
  λ base_url _,
    if String.eqb base_url "http://h:abc" then Refused "Invalid port"
    else Connected service.

(** The scenario of the specification, run from the command line. *)
Definition scenario_args : Namespace :=
  {| arg_prompt := "p"; arg_num_candidates := 3; arg_model := MODEL;
     arg_url := BASE_URL; arg_show_candidates := true |}.

(** ** [test_standard_vs_promode]: the candidate preview *)

(** [candidate[:500] + "..." if len(candidate) > 500 else candidate] *)
Definition candidate_preview (candidate : string) : string :=
  if (500 <? String.length candidate)%nat
  then String.substring 0 500 candidate +:+ "..."
  else candidate.

(** ** Measures on the effects of a run *)

(** Requests sent by a run, units and synthesis together. *)
Definition requests_sent (fx : effects) : nat :=
  (sum_list_with attempts_made (unit_logs fx) + attempts_made (synth_log fx))%nat.

(** Seconds a log spends in [time.sleep]. *)
Definition slept (l : log) : Q := foldr Qplus 0%Q (waits l).

(** The requests of a run, from all its logs. *)
Definition requests_of (fx : effects) : list request :=
  omap (λ ev, match ev with Send _ r => Some r | Sleep _ => None end)
       (concat (unit_logs fx) ++ synth_log fx)%list.

(** The candidates a run shows to the synthesis call. *)
Definition synthesis_input (self : LocalProMode) (ex : executor)
    (prompt : string) (n_runs : Z) : list string :=
  List.filter usable
    (dispatch self (ex (Z.min n_runs 16)) prompt (Z.to_nat n_runs)).

(** * Properties *)

(** ** Strings *)

Lemma lstrip_blank s : blank s = true → lstrip s = "".
Proof.
  induction s as [|c s IH]; simpl; [done|].
  intros [Hc Hs]%andb_prop. rewrite Hc. auto.
Qed.

Lemma lstrip_not_blank s :
  blank s = false → ∃ c r, lstrip s = String c r ∧ isspace c = false.
Proof.
  induction s as [|c s IH]; simpl; [done|].
  destruct (isspace c) eqn:Hc; simpl; [exact IH|].
  intros _. exists c, s. by rewrite Hc.
Qed.

Lemma rstrip_head c r : isspace c = false → truthy (rstrip (String c r)) = true.
Proof. intros Hc. simpl. rewrite Hc. by destruct (rstrip r). Qed.

Lemma usable_blank s : usable s = negb (blank s).
Proof.
  unfold usable, strip. destruct (blank s) eqn:Hb.
  - rewrite (lstrip_blank s Hb). by destruct s.
  - destruct (lstrip_not_blank s Hb) as (c & r & -> & Hc).
    rewrite (rstrip_head c r Hc). by destruct s.
Qed.

Lemma filter_usable_nil (l : list string) :
  List.filter usable l = [] ↔ Forall (λ c, blank c = true) l.
Proof.
  induction l as [|c l IH]; simpl.
  - split; [constructor|done].
  - rewrite usable_blank. destruct (blank c) eqn:Hb; simpl.
    + rewrite IH. split; [by constructor|by inversion 1].
    + split; [done|]. inversion 1; congruence.
Qed.

Example strip_example :
  strip (" a b " +:+ nl) = "a b" ∧ usable (" " +:+ nl) = false
  ∧ usable "" = false ∧ usable " x" = true.
Proof. by vm_compute. Qed.

(** ** The retry loop *)

Section Retry.
Variables (self : LocalProMode) (unit : nat) (prompt : string) (temperature : Q).

Let req := completion_request self prompt temperature.
Let reply (k : nat) := client self (CandidateCall unit k) req.
Let sent (k : nat) := Send (CandidateCall unit k) req.

(** The four ways through the loop. *)
Lemma one_completion_exit_cases :
  (∃ t, reply 0%nat = Content t ∧
     one_completion_exit self unit prompt temperature
     = (ExitResponse t, [sent 0%nat]))
  ∨ (∃ e0 t, reply 0%nat = Fault e0 ∧ reply 1%nat = Content t ∧
     one_completion_exit self unit prompt temperature
     = (ExitResponse t, [sent 0%nat; Sleep 0.5; sent 1%nat]))
  ∨ (∃ e0 e1 t, reply 0%nat = Fault e0 ∧ reply 1%nat = Fault e1 ∧
     reply 2%nat = Content t ∧
     one_completion_exit self unit prompt temperature
     = (ExitResponse t,
        [sent 0%nat; Sleep 0.5; sent 1%nat; Sleep (0.5 * 2); sent 2%nat]))
  ∨ (∃ e0 e1 e2, reply 0%nat = Fault e0 ∧ reply 1%nat = Fault e1 ∧
     reply 2%nat = Fault e2 ∧
     one_completion_exit self unit prompt temperature
     = (ExitReraise e2,
        [sent 0%nat; Sleep 0.5; sent 1%nat; Sleep (0.5 * 2); sent 2%nat])).
Proof.
  unfold one_completion_exit, reply, sent, req. simpl.
  destruct (client self (CandidateCall unit 0) _) as [t0|e0] eqn:H0.
  { left. by exists t0. }
  destruct (client self (CandidateCall unit 1) _) as [t1|e1] eqn:H1.
  { right; left. by exists e0, t1. }
  destruct (client self (CandidateCall unit 2) _) as [t2|e2] eqn:H2.
  { right; right; left. by exists e0, e1, t2. }
  right; right; right. by exists e0, e1, e2.
Qed.

Lemma one_completion_log_shape :
  let l := snd (one_completion self unit prompt temperature) in
  (1 ≤ attempts_made l ≤ 3)%nat
  ∧ spaced l = true
  ∧ Forall2 Qeq (waits l) (take (attempts_made l - 1) backoff)
  ∧ (length (waits l) ≤ 2)%nat
  ∧ (∀ site r, Send site r ∈ l →
       r = req ∧ ∃ k, (k < 3)%nat ∧ site = CandidateCall unit k).
Proof.
  unfold one_completion.
  destruct one_completion_exit_cases
    as [(t & _ & ->)|[(e0 & t & _ & _ & ->)|[(e0 & e1 & t & _ & _ & _ & ->)
       |(e0 & e1 & e2 & _ & _ & _ & ->)]]];
    cbn [snd fst exit_result]; unfold sent;
    (split; [cbn; lia|]); (split; [done|]);
    (split; [cbn; repeat constructor; reflexivity|]);
    (split; [cbn; lia|]);
    intros site r Hin; apply list_elem_of_In in Hin; cbn in Hin;
    (repeat destruct Hin as [Hin|Hin]); try (exfalso; exact Hin);
    simplify_eq;
    (split; [done|]); (eexists; split; [|reflexivity]; lia).
Qed.

Lemma one_completion_exhausted :
  (∀ k, (k < 3)%nat → ∃ err, reply k = Fault err) →
  ∃ err, reply 2%nat = Fault err
    ∧ fst (one_completion self unit prompt temperature)
      = Raises (ClientError err)
    ∧ attempts_made (snd (one_completion self unit prompt temperature)) = 3%nat.
Proof.
  intros Hall. unfold one_completion.
  destruct (Hall 0%nat) as [f0 Hf0]; [lia|].
  destruct (Hall 1%nat) as [f1 Hf1]; [lia|].
  destruct (Hall 2%nat) as [f2 Hf2]; [lia|].
  destruct one_completion_exit_cases
    as [(t & H0 & ->)|[(e0 & t & H0 & H1 & ->)|[(e0 & e1 & t & H0 & H1 & H2 & ->)
       |(e0 & e1 & e2 & H0 & H1 & H2 & ->)]]]; try congruence.
  exists e2. by cbn.
Qed.
End Retry.

(** ** Dispatch: one slot per unit, whatever the completion order *)

Lemma record_outcome_insert cands fut i :
  record_outcome cands (fut, i) = <[i:=slot_text fut]> cands.
Proof. unfold record_outcome, slot_text. by destruct (fst fut). Qed.

Lemma record_cons (es : list (future * nat)) (cands : list string) fut i :
  foldl record_outcome cands ((fut, i) :: es)
  = foldl record_outcome (<[i:=slot_text fut]> cands) es.
Proof. by rewrite <- record_outcome_insert. Qed.

Lemma record_length (es : list (future * nat)) (cands : list string) :
  length (foldl record_outcome cands es) = length cands.
Proof.
  revert cands. induction es as [|[fut i] es IH]; intros cands; [done|].
  by rewrite record_cons, IH, length_insert.
Qed.

Lemma record_untouched (es : list (future * nat)) (cands : list string) j :
  j ∉ es.*2 → foldl record_outcome cands es !! j = cands !! j.
Proof.
  revert cands. induction es as [|[fut i] es IH]; intros cands Hj; [done|].
  rewrite fmap_cons, not_elem_of_cons in Hj. destruct Hj as [Hne Hj].
  rewrite record_cons, IH by done.
  by apply list_lookup_insert_ne.
Qed.

Lemma record_written (es : list (future * nat)) (cands : list string) fut i :
  NoDup es.*2 → (fut, i) ∈ es → (i < length cands)%nat →
  foldl record_outcome cands es !! i = Some (slot_text fut).
Proof.
  revert cands. induction es as [|[fut' i'] es IH]; intros cands Hnd Hin Hlt.
  { by apply elem_of_nil in Hin. }
  rewrite fmap_cons in Hnd. apply NoDup_cons in Hnd as [Hfresh Hnd].
  rewrite record_cons.
  apply elem_of_cons in Hin as [Heq|Hin].
  - injection Heq as <- <-.
    rewrite record_untouched by done. by apply list_lookup_insert_eq.
  - apply IH; [done..|]. by rewrite length_insert.
Qed.

Section Dispatch.
Variables (self : LocalProMode) (prompt : string).
Variable as_completed : list (future * nat) → list (future * nat).
Hypothesis order : yields_each_once as_completed.

Lemma fut_to_idx_indices n : (fut_to_idx self prompt n).*2 = seq 0 n.
Proof.
  unfold fut_to_idx. rewrite <- list_fmap_compose. apply list_fmap_id.
Qed.

Lemma dispatch_length n : length (dispatch self as_completed prompt n) = n.
Proof. unfold dispatch. by rewrite record_length, length_replicate. Qed.

Lemma dispatch_lookup n i :
  (i < n)%nat →
  dispatch self as_completed prompt n !! i
  = Some (slot_text (one_completion self i prompt 0.9)).
Proof.
  intros Hi. unfold dispatch.
  apply record_written.
  - rewrite (order _), fut_to_idx_indices. apply NoDup_seq.
  - rewrite (order _). unfold fut_to_idx.
    apply list_elem_of_fmap. exists i. split; [done|].
    apply elem_of_seq. lia.
  - by rewrite length_replicate.
Qed.

(** The array after dispatch does not depend on the completion order. *)
Lemma dispatch_slots n :
  dispatch self as_completed prompt n
  = (λ i, slot_text (one_completion self i prompt 0.9)) <$> seq 0 n.
Proof.
  apply list_eq. intros i.
  destruct (decide (i < n)%nat) as [Hi|Hi].
  - rewrite dispatch_lookup, list_lookup_fmap, lookup_seq_lt by done. done.
  - rewrite !lookup_ge_None_2; [done|..].
    + rewrite length_fmap, length_seq. lia.
    + rewrite dispatch_length. lia.
Qed.
End Dispatch.

(** ** The four outcomes of [run] *)

Lemma run_cases self ex prompt n_runs :
  let cands := dispatch self (ex (Z.min n_runs 16)) prompt (Z.to_nat n_runs) in
  let filtered := List.filter usable cands in
  let ulogs := unit_logs_of self prompt (Z.to_nat n_runs) in
  let req := synthesis_request self filtered in
  (n_runs < 1 ∧
   run self ex prompt n_runs
   = (Raises (ValueError value_error_msg), no_effects))
  ∨ (1 ≤ n_runs ∧ filtered = [] ∧
     run self ex prompt n_runs
     = (Raises (RuntimeError all_failed_msg),
        {| unit_logs := ulogs; synth_log := [] |}))
  ∨ (1 ≤ n_runs ∧ filtered ≠ [] ∧ ∃ err,
     client self SynthesisCall req = Fault err ∧
     run self ex prompt n_runs
     = (Raises (ClientError err),
        {| unit_logs := ulogs; synth_log := [Send SynthesisCall req] |}))
  ∨ (1 ≤ n_runs ∧ filtered ≠ [] ∧ ∃ text,
     client self SynthesisCall req = Content text ∧
     run self ex prompt n_runs
     = (Returns {| final := text; candidates := cands |},
        {| unit_logs := ulogs; synth_log := [Send SynthesisCall req] |})).
Proof.
  intros cands filtered ulogs req. unfold run.
  destruct (Z.ltb_spec n_runs 1) as [Hn|Hn]; [left; done|right].
  fold cands. fold filtered. fold ulogs.
  destruct filtered as [|c filtered'] eqn:Hf; [left; done|right].
  fold req.
  destruct (client self SynthesisCall req) as [text|err] eqn:Hc.
  - right. split; [done|]. split; [done|]. by exists text.
  - left. split; [done|]. split; [done|]. by exists err.
Qed.

(** No unit ever sends the synthesis request. *)
Lemma unit_logs_no_synthesis self prompt n :
  List.filter is_synthesis_send (concat (unit_logs_of self prompt n)) = [].
Proof.
  unfold unit_logs_of, fut_to_idx. rewrite <- list_fmap_compose.
  induction (seq 0 n) as [|i l IH]; [done|].
  rewrite fmap_cons, concat_cons, List.filter_app, IH, app_nil_r.
  unfold compose at 1. cbn [fst snd].
  pose proof (one_completion_log_shape self i prompt 0.9) as (_ & _ & _ & _ & Hs).
  cbn zeta in Hs. revert Hs.
  generalize (snd (one_completion self i prompt 0.9)). intros lg.
  induction lg as [|ev lg IHl]; intros Hs; [done|].
  cbn [List.filter]. rewrite IHl.
  - destruct ev as [[u k|] r|d]; try done.
    destruct (Hs SynthesisCall r) as (_ & k & _ & ?); [left|done].
  - intros site r Hin. apply Hs. by right.
Qed.

Lemma lifo_completes_each_once : completes_each_once lifo.
Proof. intros workers l. apply reverse_Permutation. Qed.

Example scenario_run :
  fst (run scenario lifo "p" 3)
  = Returns {| final := "S"; candidates := ["A"; ""; "B"] |}
  ∧ attempts_made <$> unit_logs (snd (run scenario lifo "p" 3))
    = [1; 3; 1]%nat
  ∧ synthesis_sends (snd (run scenario lifo "p" 3)) = 1%nat.
Proof. by vm_compute. Qed.

(** * The claims *)

(** ** C1: one entry per unit *)

Lemma slot_text_recorded self prompt i :
  recorded_entry self prompt i (slot_text (one_completion self i prompt 0.9)).
Proof.
  unfold recorded_entry, slot_text.
  destruct (fst (one_completion self i prompt 0.9)) as [t|e]; eauto.
Qed.

(** C1, as stated, fails: with two units, unit 1 succeeding with the empty
    text, the run completes and entry 1 is neither a success with
    non-empty text nor a recorded failure. *)
Lemma run_empty_success_entry :
  fst (run (init None None empty_reply_backend) lifo "p" 2)
  = Returns {| final := "S"; candidates := ["A"; ""] |}
  ∧ fst (one_completion (init None None empty_reply_backend) 1 "p" 0.9)
    = Returns ""
  ∧ ¬ claimed_entry (init None None empty_reply_backend) "p" 1 "".
Proof.
  split; [by vm_compute|]. split; [by vm_compute|].
  intros [(t & Ht & Hne & Heq)|(e & He & _)].
  - by subst t.
  - vm_compute in He. discriminate He.
Qed.

(** C1 (amended): for every [n_runs >= 1] and every completion order, a
    run that returns gives exactly [n_runs] candidate entries, and entry
    [i] is the text unit [i] returned (which may be empty) or the empty
    string if unit [i] raised. *)
Theorem run_candidates_by_unit self ex prompt n_runs res fx :
  completes_each_once ex →
  1 ≤ n_runs →
  run self ex prompt n_runs = (Returns res, fx) →
  length (candidates res) = Z.to_nat n_runs
  ∧ ∀ i, (i < Z.to_nat n_runs)%nat →
      ∃ entry, candidates res !! i = Some entry
               ∧ recorded_entry self prompt i entry.
Proof.
  intros Hord Hn Hrun. specialize (Hord (Z.min n_runs 16)).
  destruct (run_cases self ex prompt n_runs)
    as [(_ & H)|[(_ & _ & H)|[(_ & _ & err & _ & H)|(_ & _ & text & _ & H)]]];
    rewrite H in Hrun; try discriminate Hrun.
  injection Hrun as <- <-. cbn [candidates]. split.
  - by apply dispatch_length.
  - intros i Hi. eexists. split; [by apply dispatch_lookup|].
    apply slot_text_recorded.
Qed.

Lemma run_candidates_by_unit_witness :
  length ["A"; ""; "B"] = Z.to_nat 3
  ∧ ∀ i, (i < Z.to_nat 3)%nat →
      ∃ entry, ["A"; ""; "B"] !! i = Some entry
               ∧ recorded_entry scenario "p" i entry.
Proof.
  apply (run_candidates_by_unit scenario lifo "p" 3
           {| final := "S"; candidates := ["A"; ""; "B"] |}
           (snd (run scenario lifo "p" 3))).
  - exact lifo_completes_each_once.
  - lia.
  - by vm_compute.
Defined.

(** ** C2: every unit fails *)

(** C2: if every one of the [n_runs] units fails, [run] raises the
    'All candidate generations failed.' error and no synthesis request is
    sent. *)
Theorem run_all_units_fail self ex prompt n_runs :
  completes_each_once ex →
  1 ≤ n_runs →
  (∀ i, (i < Z.to_nat n_runs)%nat →
     ∃ e, fst (one_completion self i prompt 0.9) = Raises e) →
  fst (run self ex prompt n_runs)
  = Raises (RuntimeError all_failed_msg)
  ∧ synth_log (snd (run self ex prompt n_runs)) = []
  ∧ synthesis_sends (snd (run self ex prompt n_runs)) = 0%nat.
Proof.
  intros Hord Hn Hfail. specialize (Hord (Z.min n_runs 16)).
  assert (List.filter usable
            (dispatch self (ex (Z.min n_runs 16)) prompt (Z.to_nat n_runs)) = []) as Hnil.
  { apply filter_usable_nil, Forall_lookup_2. intros i c Hc.
    assert (i < Z.to_nat n_runs)%nat as Hi.
    { apply lookup_lt_Some in Hc. by rewrite dispatch_length in Hc. }
    rewrite dispatch_lookup in Hc by done. injection Hc as <-.
    destruct (Hfail i Hi) as [e He]. unfold slot_text. by rewrite He. }
  destruct (run_cases self ex prompt n_runs)
    as [(? & _)|[(_ & _ & H)|[(_ & Hne & _)|(_ & Hne & _)]]];
    [lia| |done|done].
  rewrite H. cbn [fst snd synth_log]. split; [done|]. split; [done|].
  unfold synthesis_sends. cbn [unit_logs synth_log].
  by rewrite app_nil_r, unit_logs_no_synthesis.
Qed.

Lemma run_all_units_fail_witness :
  fst (run (init None None down_backend) lifo "p" 2)
  = Raises (RuntimeError all_failed_msg)
  ∧ synth_log (snd (run (init None None down_backend) lifo "p" 2)) = []
  ∧ synthesis_sends (snd (run (init None None down_backend) lifo "p" 2))
    = 0%nat.
Proof.
  apply (run_all_units_fail (init None None down_backend) lifo "p" 2).
  - exact lifo_completes_each_once.
  - lia.
  - intros i _. exists (ClientError "backend down"). reflexivity.
Defined.

(** ** C3: the retry policy of a unit *)

(** C3: every dispatch unit makes at most 3 attempts, sleeps between two
    consecutive attempts only, 0.5 then 1.0 (at most 2 sleeps); a unit
    whose 3 attempts fail leaves the empty string in its slot, and what
    [run] raises is never a unit's error: it is one of its own two errors
    or the error of the synthesis call. *)
Theorem unit_retry_policy self ex prompt n_runs i :
  completes_each_once ex →
  1 ≤ n_runs →
  (i < Z.to_nat n_runs)%nat →
  let cands := dispatch self (ex (Z.min n_runs 16)) prompt (Z.to_nat n_runs) in
  let l := snd (one_completion self i prompt 0.9) in
  unit_logs (snd (run self ex prompt n_runs)) !! i = Some l
  ∧ (1 ≤ attempts_made l ≤ 3)%nat
  ∧ spaced l = true
  ∧ Forall2 Qeq (waits l) (take (attempts_made l - 1) backoff)
  ∧ (length (waits l) ≤ 2)%nat
  ∧ ((∀ k, (k < 3)%nat → ∃ err,
        client self (CandidateCall i k) (completion_request self prompt 0.9)
        = Fault err) →
     attempts_made l = 3%nat ∧ cands !! i = Some "")
  ∧ (∀ e, fst (run self ex prompt n_runs) = Raises e →
     e = RuntimeError all_failed_msg
     ∨ ∃ err, e = ClientError err
        ∧ client self SynthesisCall
            (synthesis_request self (List.filter usable cands)) = Fault err).
Proof.
  intros Hord Hn Hi cands l. specialize (Hord (Z.min n_runs 16)).
  pose proof (one_completion_log_shape self i prompt 0.9)
    as (Hatt & Hsp & Hw & Hlen & _).
  split.
  { destruct (run_cases self ex prompt n_runs)
      as [(? & _)|[(_ & _ & H)|[(_ & _ & err & _ & H)|(_ & _ & text & _ & H)]]];
      [lia|..]; rewrite H; cbn [snd unit_logs];
      unfold unit_logs_of, fut_to_idx;
      by rewrite <- list_fmap_compose, list_lookup_fmap, lookup_seq_lt. }
  do 4 (split; [done|]). split.
  - intros Hall.
    destruct (one_completion_exhausted self i prompt 0.9 Hall)
      as (err & _ & Hres & Hthree).
    split; [done|]. unfold cands. rewrite dispatch_lookup by done.
    unfold slot_text. by rewrite Hres.
  - intros e He.
    destruct (run_cases self ex prompt n_runs)
      as [(? & _)|[(_ & _ & H)|[(_ & _ & err & Hc & H)|(_ & _ & text & _ & H)]]];
      [lia|..]; rewrite H in He; cbn [fst] in He.
    + injection He as <-. by left.
    + injection He as <-. right. by exists err.
    + discriminate He.
Qed.

Lemma unit_retry_policy_witness :
  let cands := dispatch scenario (lifo (Z.min 3 16)) "p" (Z.to_nat 3) in
  let l := snd (one_completion scenario 1 "p" 0.9) in
  unit_logs (snd (run scenario lifo "p" 3)) !! 1%nat = Some l
  ∧ (1 ≤ attempts_made l ≤ 3)%nat
  ∧ spaced l = true
  ∧ Forall2 Qeq (waits l) (take (attempts_made l - 1) backoff)
  ∧ (length (waits l) ≤ 2)%nat
  ∧ ((∀ k, (k < 3)%nat → ∃ err,
        client scenario (CandidateCall 1 k) (completion_request scenario "p" 0.9)
        = Fault err) →
     attempts_made l = 3%nat ∧ cands !! 1%nat = Some "")
  ∧ (∀ e, fst (run scenario lifo "p" 3) = Raises e →
     e = RuntimeError all_failed_msg
     ∨ ∃ err, e = ClientError err
        ∧ client scenario SynthesisCall
            (synthesis_request scenario (List.filter usable cands)) = Fault err).
Proof.
  apply (unit_retry_policy scenario lifo "p" 3 1).
  - exact lifo_completes_each_once.
  - lia.
  - vm_compute. lia.
Defined.

(** ** C6: invalid [n_runs] *)

(** C6: for every [n_runs < 1], [run] raises the ValueError
    'n_runs must be >= 1' and nothing is sent: no unit log, no synthesis
    request. *)
Theorem run_rejects_nonpositive self ex prompt n_runs :
  n_runs < 1 →
  fst (run self ex prompt n_runs)
  = Raises (ValueError "n_runs must be >= 1")
  ∧ unit_logs (snd (run self ex prompt n_runs)) = []
  ∧ synth_log (snd (run self ex prompt n_runs)) = [].
Proof.
  intros Hn. unfold run.
  destruct (Z.ltb_spec n_runs 1) as [_|Hge]; [done|lia].
Qed.

Lemma run_rejects_nonpositive_witness :
  fst (run scenario lifo "p" 0) = Raises (ValueError "n_runs must be >= 1")
  ∧ unit_logs (snd (run scenario lifo "p" 0)) = []
  ∧ synth_log (snd (run scenario lifo "p" 0)) = [].
Proof. apply (run_rejects_nonpositive scenario lifo "p" 0). lia. Defined.

(** ** C9: the completion order does not show *)

(** C9: with the service fixed, two runs on the same prompt and [n_runs]
    give the same outcome (candidates and final text, or the same error)
    and the same logs, whatever the order in which the units complete in
    each of them. *)
Theorem run_order_independent self ex1 ex2 prompt n_runs :
  completes_each_once ex1 →
  completes_each_once ex2 →
  run self ex1 prompt n_runs = run self ex2 prompt n_runs.
Proof.
  intros H1 H2. unfold run.
  by rewrite (dispatch_slots self prompt _ (H1 (Z.min n_runs 16))),
             (dispatch_slots self prompt _ (H2 (Z.min n_runs 16))).
Qed.

Lemma run_order_independent_witness :
  run scenario lifo "p" 3 = run scenario fifo "p" 3.
Proof.
  apply (run_order_independent scenario lifo fifo "p" 3).
  - exact lifo_completes_each_once.
  - intros workers entries. reflexivity.
Defined.

(** ** C10: the exits of [_one_completion] *)

(** C10: [_one_completion] leaves either by returning the text of the
    response to attempt [k < 3], the earlier attempts having failed, or by
    re-raising the error of the third attempt, all three having failed;
    it never reaches the [return ""] after the loop. *)
Theorem one_completion_never_trailing self unit prompt temperature :
  let req := completion_request self prompt temperature in
  let reply := λ k, client self (CandidateCall unit k) req in
  let ex := fst (one_completion_exit self unit prompt temperature) in
  let out := one_completion self unit prompt temperature in
  ex ≠ ExitTrailing
  ∧ ((∃ k t, (k < 3)%nat ∧ reply k = Content t
        ∧ (∀ j, (j < k)%nat → ∃ err, reply j = Fault err)
        ∧ ex = ExitResponse t ∧ fst out = Returns t
        ∧ attempts_made (snd out) = S k)
     ∨ (∃ err, reply 2%nat = Fault err
        ∧ (∀ j, (j < 3)%nat → ∃ err', reply j = Fault err')
        ∧ ex = ExitReraise err ∧ fst out = Raises (ClientError err)
        ∧ attempts_made (snd out) = 3%nat)).
Proof.
  intros req reply ex out. unfold ex, out, one_completion.
  destruct (one_completion_exit_cases self unit prompt temperature)
    as [(t & H0 & ->)|[(e0 & t & H0 & H1 & ->)|[(e0 & e1 & t & H0 & H1 & H2 & ->)
       |(e0 & e1 & e2 & H0 & H1 & H2 & ->)]]];
    cbn [fst snd exit_result]; (split; [done|]).
  - left. exists 0%nat, t. repeat split; try done; [lia|]. intros j Hj. lia.
  - left. exists 1%nat, t. repeat split; try done; [lia|].
    intros j Hj. assert (j = 0%nat) as -> by lia. eauto.
  - left. exists 2%nat, t. repeat split; try done; [lia|].
    intros j Hj. destruct j as [|[|j]]; [eauto..|lia].
  - right. exists e2. repeat split; try done.
    intros j Hj. destruct j as [|[|[|j]]]; [eauto..|lia].
Qed.

(** ** C5: the synthesis stage *)

Lemma unit_sends_candidate self prompt n l site r :
  l ∈ unit_logs_of self prompt n → Send site r ∈ l →
  req_temperature r = 0.9%Q ∧ site ≠ SynthesisCall.
Proof.
  unfold unit_logs_of, fut_to_idx. rewrite <- list_fmap_compose.
  intros (i & -> & _)%list_elem_of_fmap Hin.
  pose proof (one_completion_log_shape self i prompt 0.9) as (_ & _ & _ & _ & Hs).
  destruct (Hs site r Hin) as (-> & k & _ & ->). done.
Qed.

(** C5: when the synthesis stage is reached (some candidate passes the
    filter), it sends exactly one request, at temperature 0.2; if that
    request fails its error is what [run] raises, with no second try, and
    otherwise its text is the final answer; every request of a dispatch
    unit is a candidate request at temperature 0.9. *)
Theorem synthesis_single_request self ex prompt n_runs :
  1 ≤ n_runs →
  List.filter usable (dispatch self (ex (Z.min n_runs 16)) prompt (Z.to_nat n_runs)) ≠ [] →
  let cands := dispatch self (ex (Z.min n_runs 16)) prompt (Z.to_nat n_runs) in
  let req := synthesis_request self (List.filter usable cands) in
  let out := fst (run self ex prompt n_runs) in
  let fx := snd (run self ex prompt n_runs) in
  synth_log fx = [Send SynthesisCall req]
  ∧ synthesis_sends fx = 1%nat
  ∧ req_temperature req = 0.2%Q
  ∧ (∀ err, client self SynthesisCall req = Fault err →
       out = Raises (ClientError err))
  ∧ (∀ text, client self SynthesisCall req = Content text →
       out = Returns {| final := text; candidates := cands |})
  ∧ (∀ l site r, l ∈ unit_logs fx → Send site r ∈ l →
       req_temperature r = 0.9%Q ∧ site ≠ SynthesisCall).
Proof.
  intros Hn Hne cands req out fx. unfold out, fx.
  destruct (run_cases self ex prompt n_runs)
    as [(? & _)|[(_ & Hnil & _)|[(_ & _ & err & Hc & H)|(_ & _ & text & Hc & H)]]];
    [lia|done|..]; rewrite H; cbn [fst snd synth_log unit_logs];
    fold cands; fold req; fold cands in Hc; fold req in Hc.
  all: split; [done|].
  all: split;
    [unfold synthesis_sends; cbn [unit_logs synth_log];
     by rewrite List.filter_app, unit_logs_no_synthesis|].
  all: split; [done|].
  all: split; [intros ? ?; congruence|].
  all: split; [intros ? ?; congruence|].
  all: intros l site r; apply unit_sends_candidate.
Qed.

Lemma synthesis_single_request_witness :
  let cands := dispatch scenario (lifo (Z.min 3 16)) "p" (Z.to_nat 3) in
  let req := synthesis_request scenario (List.filter usable cands) in
  let out := fst (run scenario lifo "p" 3) in
  let fx := snd (run scenario lifo "p" 3) in
  synth_log fx = [Send SynthesisCall req]
  ∧ synthesis_sends fx = 1%nat
  ∧ req_temperature req = 0.2%Q
  ∧ (∀ err, client scenario SynthesisCall req = Fault err →
       out = Raises (ClientError err))
  ∧ (∀ text, client scenario SynthesisCall req = Content text →
       out = Returns {| final := text; candidates := cands |})
  ∧ (∀ l site r, l ∈ unit_logs fx → Send site r ∈ l →
       req_temperature r = 0.9%Q ∧ site ≠ SynthesisCall).
Proof.
  apply (synthesis_single_request scenario lifo "p" 3).
  - lia.
  - vm_compute. discriminate.
Defined.

(** ** C8: when [run] gives up *)

(** C8: [run] raises 'All candidate generations failed.' exactly when
    [n_runs >= 1] and every slot is empty or whitespace only, that is,
    exactly when every unit raised or returned a text that is empty or
    whitespace only.  A unit that succeeds with whitespace-only text is
    left out of the synthesis input but its text is returned as it is in
    [candidates]; and a run in which no unit raised can fail with this
    error. *)
Theorem run_gives_up_iff_blank self ex prompt n_runs :
  completes_each_once ex →
  (fst (run self ex prompt n_runs)
   = Raises (RuntimeError all_failed_msg)
   ↔ 1 ≤ n_runs
     ∧ Forall (λ c, blank c = true)
         (dispatch self (ex (Z.min n_runs 16)) prompt (Z.to_nat n_runs)))
  ∧ (fst (run self ex prompt n_runs)
     = Raises (RuntimeError all_failed_msg)
     ↔ 1 ≤ n_runs
       ∧ ∀ i t, (i < Z.to_nat n_runs)%nat →
           fst (one_completion self i prompt 0.9) = Returns t →
           blank t = true)
  ∧ (∀ res fx i t,
       run self ex prompt n_runs = (Returns res, fx) →
       (i < Z.to_nat n_runs)%nat →
       fst (one_completion self i prompt 0.9) = Returns t →
       blank t = true →
       candidates res !! i = Some t
       ∧ (t ∉ List.filter usable (candidates res))
       ∧ synth_log fx
         = [Send SynthesisCall
              (synthesis_request self (List.filter usable (candidates res)))])
  ∧ ((∀ i, ∃ t,
        fst (one_completion (init None None space_backend) i prompt 0.9)
        = Returns t)
     ∧ fst (run (init None None space_backend) ex prompt 1)
       = Raises (RuntimeError all_failed_msg)).
Proof.
  intros Hord.
  assert (fst (run self ex prompt n_runs)
          = Raises (RuntimeError all_failed_msg)
          ↔ 1 ≤ n_runs
            ∧ Forall (λ c, blank c = true)
                (dispatch self (ex (Z.min n_runs 16)) prompt (Z.to_nat n_runs)))
    as Hslots.
  { destruct (run_cases self ex prompt n_runs)
      as [(? & H)|[(? & Hnil & H)|[(? & Hne & err & _ & H)|(? & Hne & text & _ & H)]]];
      rewrite H; cbn [fst]; rewrite <- filter_usable_nil.
    + split; [done|]. intros [? _]. lia.
    + done.
    + split; [done|]. by intros [_ ?].
    + split; [done|]. by intros [_ ?]. }
  split; [exact Hslots|]. split; [|split].
  - rewrite Hslots.
    rewrite (dispatch_slots self prompt _ (Hord (Z.min n_runs 16))).
    rewrite Forall_fmap, Forall_forall. setoid_rewrite elem_of_seq.
    split; intros [Hn Hall]; (split; [done|]).
    + intros i t Hi Ht. specialize (Hall i). cbn in Hall.
      unfold slot_text in Hall. rewrite Ht in Hall. apply Hall. lia.
    + intros i Hi. cbn. unfold slot_text.
      destruct (fst (one_completion self i prompt 0.9)) as [t|e] eqn:Ht;
        [|done]. apply (Hall i t); [lia|done].
  - intros res fx i t Hrun Hi Ht Hb. specialize (Hord (Z.min n_runs 16)).
    destruct (run_cases self ex prompt n_runs)
      as [(_ & H)|[(_ & _ & H)|[(_ & _ & err & _ & H)|(_ & _ & text & _ & H)]]];
      rewrite H in Hrun; try discriminate Hrun.
    injection Hrun as <- <-. cbn [candidates synth_log].
    split; [|split; [|done]].
    + rewrite dispatch_lookup by done. unfold slot_text. by rewrite Ht.
    + rewrite list_elem_of_In, List.filter_In, usable_blank, Hb.
      by intros [_ ?].
  - split; [intros i; by exists " "|].
    unfold run. cbn [Z.ltb Z.compare Pos.compare Pos.compare_cont Z.to_nat
                     Pos.to_nat Pos.iter_op Nat.add].
    by rewrite (dispatch_slots _ prompt _ (Hord (Z.min 1 16))).
Qed.

(** With two units, the first answering a single space and the second a
    text, the run returns both texts as they are and shows the
    synthesis call the second only. *)
Lemma run_gives_up_iff_blank_witness :
  fst (run (init None None padded_backend) lifo "p" 2)
  = Returns {| final := "S"; candidates := [" "; "A"] |}
  ∧ [" "; "A"] !! 0%nat = Some " "
  ∧ (" " ∉ List.filter usable [" "; "A"])
  ∧ synth_log (snd (run (init None None padded_backend) lifo "p" 2))
    = [Send SynthesisCall
         (synthesis_request (init None None padded_backend) ["A"])]
  ∧ (fst (run (init None None padded_backend) lifo "p" 2)
     = Raises (RuntimeError all_failed_msg)
     ↔ 1 ≤ 2
       ∧ ∀ i t, (i < Z.to_nat 2)%nat →
           fst (one_completion (init None None padded_backend) i "p" 0.9)
           = Returns t →
           blank t = true).
Proof.
  destruct (run_gives_up_iff_blank (init None None padded_backend) lifo "p" 2
              lifo_completes_each_once) as (_ & Hunits & Hverbatim & _).
  split; [by vm_compute|].
  destruct (Hverbatim {| final := "S"; candidates := [" "; "A"] |}
              (snd (run (init None None padded_backend) lifo "p" 2))
              0%nat " ") as (Hslot & Hout & Hsynth).
  - by vm_compute.
  - vm_compute. lia.
  - by vm_compute.
  - reflexivity.
  - split; [exact Hslot|]. split; [exact Hout|]. split; [exact Hsynth|].
    exact Hunits.
Defined.

(** ** The worker pool *)

Lemma in_flight_le_running s : (in_flight s ≤ length (running s))%nat.
Proof. unfold in_flight. apply List.filter_length_le. Qed.

Lemma pool_step_running self prompt cap s s' :
  pool_step self prompt cap s s' →
  (length (running s) ≤ cap)%nat → (length (running s') ≤ cap)%nat.
Proof.
  destruct 1; cbn [running]; rewrite ?length_app; cbn [length];
    rewrite ?length_app; cbn [length]; lia.
Qed.

Lemma pool_step_accounted self prompt cap n s s' :
  pool_step self prompt cap s s' → accounted n s → accounted n s'.
Proof.
  unfold accounted.
  destruct 1; cbn [queue running finished]; intros <-;
    rewrite ?fmap_app, ?fmap_cons, ?fmap_app; cbn [w_unit fst fmap list_fmap];
    solve_Permutation.
Qed.

Lemma fst_one_completion self i prompt temperature :
  fst (one_completion self i prompt temperature)
  = exit_result (fst (one_completion_exit self i prompt temperature)).
Proof. unfold one_completion. by destruct one_completion_exit. Qed.

Lemma resume_content self prompt i a rest d text :
  client self (CandidateCall i a) (completion_request self prompt 0.9%Q)
  = Content text →
  resume self prompt (Worker i (Awaiting a rest d)) = Returns text.
Proof. intros H. unfold resume. cbn. by rewrite H. Qed.

Lemma resume_reraise self prompt i rest d err :
  client self (CandidateCall i 2) (completion_request self prompt 0.9%Q)
  = Fault err →
  resume self prompt (Worker i (Awaiting 2 rest d))
  = Raises (ClientError err).
Proof. intros H. unfold resume. cbn. by rewrite H. Qed.

Lemma resume_retry self prompt i a rest d err :
  client self (CandidateCall i a) (completion_request self prompt 0.9%Q)
  = Fault err →
  a ≠ 2%nat →
  resume self prompt (Worker i (Sleeping rest d))
  = resume self prompt (Worker i (Awaiting a rest d)).
Proof.
  intros H Ha. unfold resume. cbn. rewrite H.
  destruct (Nat.eqb_spec a 2) as [|_]; [done|].
  by destruct (completion_loop self i prompt 0.9 rest (d * 2)).
Qed.

Lemma pool_step_on_course self prompt cap s s' :
  pool_step self prompt cap s s' →
  on_course self prompt s → on_course self prompt s'.
Proof.
  unfold on_course.
  destruct 1 as [i q ws fin Hcap|i a rest d q ws1 ws2 fin|i d q ws1 ws2 fin
                |i a rest d text q ws1 ws2 fin Hc
                |i a rest d err q ws1 ws2 fin Hc ->
                |i a rest d err q ws1 ws2 fin Hc Ha|i rest d q ws1 ws2 fin];
    cbn [running finished]; intros [Hrun Hfin].
  - split; [|done]. apply Forall_app. split; [done|].
    constructor; [|constructor]. cbn [w_unit]. by rewrite fst_one_completion.
  - split; [|done]. revert Hrun. rewrite !Forall_app, !Forall_cons. tauto.
  - revert Hrun. rewrite !Forall_app, !Forall_cons. cbn [fst snd w_unit].
    intros (? & <- & ?). tauto.
  - revert Hrun. rewrite !Forall_app, !Forall_cons. cbn [fst snd w_unit].
    rewrite (resume_content _ _ _ _ _ _ _ Hc). intros (? & <- & ?). tauto.
  - revert Hrun. rewrite !Forall_app, !Forall_cons. cbn [fst snd w_unit].
    rewrite (resume_reraise _ _ _ _ _ _ Hc). intros (? & <- & ?). tauto.
  - split; [|done]. revert Hrun. rewrite !Forall_app, !Forall_cons.
    rewrite (resume_retry _ _ _ _ _ _ _ Hc Ha). tauto.
  - split; [|done]. revert Hrun. rewrite !Forall_app, !Forall_cons. tauto.
Qed.

(** A worker can always take its next step, and a queued unit starts as
    soon as a thread is free: a pool that cannot step has finished. *)
Lemma pool_stuck_finished self prompt cap s :
  (0 < cap)%nat →
  (∀ s', ¬ pool_step self prompt cap s s') →
  queue s = [] ∧ running s = [].
Proof.
  intros Hcap Hstuck. destruct s as [q ws fin]. cbn [queue running].
  destruct ws as [|[i c] ws].
  - split; [|done]. destruct q as [|i q]; [done|].
    exfalso. eapply Hstuck. by apply step_start.
  - exfalso. destruct c as [[|a rest] d|a rest d|rest d].
    + eapply Hstuck. apply (step_trailing _ _ _ i d q [] ws fin).
    + eapply Hstuck. apply (step_send _ _ _ i a rest d q [] ws fin).
    + destruct (client self (CandidateCall i a)
                  (completion_request self prompt 0.9%Q)) as [text|err] eqn:Hc.
      * eapply Hstuck. by apply (step_content _ _ _ i a rest d text q [] ws fin).
      * destruct (decide (a = 2%nat)) as [Ha|Ha].
        -- eapply Hstuck.
           by apply (step_reraise _ _ _ i a rest d err q [] ws fin).
        -- eapply Hstuck.
           by apply (step_retry _ _ _ i a rest d err q [] ws fin).
    + eapply Hstuck. apply (step_wake _ _ _ i rest d q [] ws fin).
Qed.

Section PoolRun.
Variables (self : LocalProMode) (prompt : string) (cap n : nat).

Lemma pool_invariant s :
  rtc (pool_step self prompt cap) (submitted n) s →
  (length (running s) ≤ cap)%nat
  ∧ accounted n s
  ∧ on_course self prompt s.
Proof.
  revert s. apply rtc_ind_r.
  - split; [cbn; lia|]. split.
    + unfold accounted. cbn. by rewrite app_nil_r.
    + split; constructor.
  - intros s1 s2 _ Hstep (Hlen & Hacc & Hoc).
    split; [by eapply pool_step_running|].
    split; [by eapply pool_step_accounted|by eapply pool_step_on_course].
Qed.

(** When the pool has come to rest, the finished futures are those of
    [fut_to_idx]. *)
Lemma pool_futures s :
  (0 < cap)%nat →
  rtc (pool_step self prompt cap) (submitted n) s →
  (∀ s', ¬ pool_step self prompt cap s s') →
  finished s
  ≡ₚ (λ entry, (snd entry, fst (fst entry))) <$> fut_to_idx self prompt n.
Proof.
  intros Hcap Hreach Hstuck.
  destruct (pool_invariant s Hreach) as (_ & Hacc & _ & Hfin).
  destruct (pool_stuck_finished self prompt cap s Hcap Hstuck) as [Hq Hr].
  unfold accounted in Hacc. rewrite Hq, Hr in Hacc. cbn in Hacc.
  unfold fut_to_idx. rewrite <- list_fmap_compose, <- Hacc.
  rewrite <- list_fmap_compose.
  erewrite (list_fmap_ext _ id (finished s)); [by rewrite list_fmap_id|].
  intros k [i r] Hk. rewrite Forall_lookup in Hfin.
  specialize (Hfin k _ Hk). cbn in *. by subst r.
Qed.

(** The first [k] units can be started, for [k] within the cap. *)
Lemma pool_started k :
  (k ≤ cap)%nat → (k ≤ n)%nat →
  rtc (pool_step self prompt cap) (submitted n)
      (Pool (seq k (n - k))
            ((λ i, Worker i (LoopHead (seq 0 3) 0.5%Q)) <$> seq 0 k) []).
Proof.
  induction k as [|k IH]; intros Hcap Hn.
  - rewrite Nat.sub_0_r. apply rtc_refl.
  - eapply rtc_r; [apply IH; lia|].
    replace (n - k)%nat with (S (n - S k)) by lia.
    rewrite (seq_S k 0), fmap_app. cbn [seq fmap list_fmap Nat.add].
    apply step_start. rewrite length_fmap, length_seq. lia.
Qed.

(** The started units can all send their first request. *)
Lemma pool_sent (q : list nat) k j :
  (j ≤ k)%nat →
  rtc (pool_step self prompt cap)
      (Pool q ((λ i, Worker i (LoopHead (seq 0 3) 0.5%Q)) <$> seq 0 k) [])
      (Pool q (((λ i, Worker i (Awaiting 0 [1; 2]%nat 0.5%Q)) <$> seq 0 j)
               ++ ((λ i, Worker i (LoopHead (seq 0 3) 0.5%Q))
                   <$> seq j (k - j))) []).
Proof.
  induction j as [|j IH]; intros Hj.
  - rewrite Nat.sub_0_r. apply rtc_refl.
  - eapply rtc_r; [apply IH; lia|].
    replace (k - j)%nat with (S (k - S j)) by lia.
    rewrite (seq_S j 0), fmap_app, <- app_assoc.
    cbn [seq fmap list_fmap Nat.add app].
    apply (step_send self prompt cap j 0%nat [1; 2]%nat 0.5%Q).
Qed.

Lemma pool_all_sending k :
  (k ≤ cap)%nat → (k ≤ n)%nat →
  rtc (pool_step self prompt cap) (submitted n) (all_sending n k)
  ∧ in_flight (all_sending n k) = k.
Proof.
  intros Hcap Hn. split.
  - etrans; [by apply pool_started|].
    etrans; [by apply (pool_sent _ k k)|].
    rewrite Nat.sub_diag. cbn [seq fmap list_fmap]. rewrite app_nil_r.
    apply rtc_refl.
  - unfold in_flight, all_sending. cbn [running].
    assert (∀ l : list nat,
              length (List.filter awaiting
                        ((λ i, Worker i (Awaiting 0 [1; 2]%nat 0.5%Q)) <$> l))
              = length l) as Hall.
    { induction l as [|i l IH]; [done|]. cbn. by rewrite IH. }
    by rewrite Hall, length_seq.
Qed.
End PoolRun.

Lemma pool_step_work_left self prompt cap s s' :
  pool_step self prompt cap s s' → (work_left s' < work_left s)%nat.
Proof.
  unfold work_left.
  destruct 1; cbn [queue running]; rewrite ?sum_list_with_app;
    cbn -[Nat.mul]; lia.
Qed.

(** ** C7: the concurrency cap *)

Lemma run_asks_for_min prompt n_runs :
  asks_for_workers prompt n_runs (Z.min n_runs 16).
Proof.
  intros self ex ex' Hsame. unfold run, dispatch.
  destruct (n_runs <? 1); [done|]. by rewrite Hsame.
Qed.

(** The number of workers [run] asks for is determined by what [run]
    does: an executor that only works with another number of workers
    makes a run fail that succeeds otherwise. *)
Lemma asks_for_workers_unique prompt n_runs w :
  1 ≤ n_runs → asks_for_workers prompt n_runs w → w = Z.min n_runs 16.
Proof.
  intros Hn Hask. destruct (decide (w = Z.min n_runs 16)) as [|Hne]; [done|].
  exfalso. set (self := init None None echo_backend).
  assert (run self (only_with w) prompt n_runs = run self fifo prompt n_runs)
    as Heq.
  { apply Hask. intros entries. unfold only_with, fifo. by case_decide. }
  apply (f_equal fst) in Heq.
  assert (List.filter usable
            (dispatch self (only_with w (Z.min n_runs 16)) prompt
               (Z.to_nat n_runs)) = []) as Hnone.
  { unfold dispatch, only_with. case_decide; [congruence|].
    apply filter_usable_nil. change (foldl record_outcome ?c []) with c.
    by apply Forall_replicate. }
  assert (List.filter usable
            (dispatch self (fifo (Z.min n_runs 16)) prompt (Z.to_nat n_runs))
          ≠ []) as Hsome.
  { intros Hnil%filter_usable_nil. rewrite Forall_lookup in Hnil.
    specialize (Hnil 0%nat "A"). cbn beta in Hnil.
    assert (blank "A" = true) as Hb; [|discriminate Hb].
    apply Hnil. rewrite dispatch_lookup; [done| |lia].
    intros entries. reflexivity. }
  destruct (run_cases self (only_with w) prompt n_runs)
    as [(? & _)|[(_ & _ & H)|[(_ & Hno & _)|(_ & Hno & _)]]];
    [lia| |done|done].
  rewrite H in Heq. cbn [fst] in Heq.
  destruct (run_cases self fifo prompt n_runs)
    as [(? & _)|[(_ & Hno & _)|[(_ & _ & err & _ & H')|(_ & _ & text & _ & H')]]];
    [lia|done|..]; rewrite H' in Heq; discriminate Heq.
Qed.

(** C7: [run] asks its executor for [min(n_runs, 16)] workers, and for
    no other number.  For every [n_runs >= 1], in every state a pool
    with the workers [run] asks for can reach from the [n_runs]
    submitted units, the requests in flight are at most the running
    units, which are at most [min(n_runs, 16)]; every other unit is
    finished or still in the queue, and a unit leaves the queue only
    while fewer than [min(n_runs, 16)] units are running.  The bound is
    reached: the pool can have [min(n_runs, 16)] requests in flight with
    all the other units in the queue. *)
Theorem pool_in_flight_bound self prompt n_runs :
  1 ≤ n_runs →
  let bound := Z.to_nat (Z.min n_runs 16) in
  let n := Z.to_nat n_runs in
  asks_for_workers prompt n_runs (Z.min n_runs 16)
  ∧ ∀ w, asks_for_workers prompt n_runs w →
      (∀ s, rtc (pool_step self prompt (Z.to_nat w)) (submitted n) s →
         (in_flight s ≤ length (running s))%nat
         ∧ (length (running s) ≤ bound)%nat
         ∧ (in_flight s ≤ bound)%nat
         ∧ accounted n s
         ∧ (∀ s', pool_step self prompt (Z.to_nat w) s s' →
              (length (queue s') < length (queue s))%nat →
              (length (running s) < bound)%nat))
      ∧ (∃ s, rtc (pool_step self prompt (Z.to_nat w)) (submitted n) s
              ∧ in_flight s = bound
              ∧ queue s = seq bound (n - bound)).
Proof.
  intros Hn bound n. split; [apply run_asks_for_min|].
  intros w Hask. rewrite (asks_for_workers_unique prompt n_runs w Hn Hask).
  fold bound. split.
  - intros s Hreach.
    destruct (pool_invariant self prompt bound n s Hreach) as (Hlen & Hacc & _).
    pose proof (in_flight_le_running s) as Hfl.
    split; [done|]. split; [done|]. split; [lia|]. split; [done|].
    intros s' Hstep.
    destruct Hstep; cbn [queue running length]; intros Hq; [done|lia..].
  - exists (all_sending n bound).
    destruct (pool_all_sending self prompt bound n bound) as [Hreach Hfl];
      [lia|unfold bound, n; lia|]. done.
Qed.

(** Seventeen units: sixteen requests in flight, the last unit waiting. *)
Lemma pool_in_flight_bound_witness :
  asks_for_workers "p" 17 (Z.min 17 16)
  ∧ ∀ w, asks_for_workers "p" 17 w →
      (∀ s, rtc (pool_step scenario "p" (Z.to_nat w)) (submitted 17) s →
         (in_flight s ≤ length (running s))%nat
         ∧ (length (running s) ≤ 16)%nat
         ∧ (in_flight s ≤ 16)%nat
         ∧ accounted 17 s
         ∧ (∀ s', pool_step scenario "p" (Z.to_nat w) s s' →
              (length (queue s') < length (queue s))%nat →
              (length (running s) < 16)%nat))
      ∧ (∃ s, rtc (pool_step scenario "p" (Z.to_nat w)) (submitted 17) s
              ∧ in_flight s = 16%nat
              ∧ queue s = [16%nat]).
Proof. apply (pool_in_flight_bound scenario "p" 17). lia. Defined.

(** ** C4: the synthesis request body *)

Lemma str_app_assoc (a b c : string) : (a +:+ b) +:+ c = a +:+ b +:+ c.
Proof.
  induction a as [|x a IH]; [done|].
  change (String x ((a +:+ b) +:+ c) = String x (a +:+ b +:+ c)).
  by rewrite IH.
Qed.

Lemma str_app_nil_r (a : string) : a +:+ "" = a.
Proof.
  induction a as [|x a IH]; [done|].
  change (String x (a +:+ "") = String x a). by rewrite IH.
Qed.

(** The blocks the code joins are the blocks of the specification. *)
Lemma join_blocks (off : nat) (cands : list string) :
  join (nl +:+ nl) (imap (λ i, cand_block (off + i)) cands)
  = spec_blocks (S off) cands.
Proof.
  revert off. induction cands as [|txt rest IH]; intros off; [done|].
  rewrite imap_cons.
  assert (cand_block (off + 0) txt = spec_block (S off) txt) as ->.
  { unfold cand_block, spec_block.
    by replace (off + 0 + 1)%nat with (S off) by lia. }
  rewrite (imap_ext _ (λ i, cand_block (S off + i)))
    by (intros i x _; cbn; f_equal; lia).
  specialize (IH (S off)). destruct rest as [|txt' rest]; [done|].
  change (spec_blocks (S off) (txt :: txt' :: rest))
    with (spec_block (S off) txt +:+ nl +:+ nl
          +:+ spec_blocks (S (S off)) (txt' :: rest)).
  rewrite <- IH. unfold join. rewrite imap_cons.
  generalize (imap ((λ i, cand_block (S off + i)) ∘ S) rest).
  intros blocks. cbn [String.concat].
  by rewrite <- !str_app_assoc.
Qed.

(** Every candidate has its block in the text of the blocks. *)
Lemma spec_blocks_holds (cands : list string) (label j : nat) (txt : string) :
  cands !! j = Some txt →
  ∃ before after,
    spec_blocks label cands = before +:+ spec_block (label + j) txt +:+ after.
Proof.
  revert label j. induction cands as [|c rest IH]; intros label j Hj; [done|].
  destruct j as [|j].
  - injection Hj as ->. rewrite Nat.add_0_r. exists "".
    destruct rest as [|c' rest].
    + exists "". cbn [spec_blocks]. by rewrite str_app_nil_r.
    + eexists. cbn [spec_blocks]. reflexivity.
  - cbn in Hj. destruct (IH (S label) j Hj) as (before & after & Hrest).
    destruct rest as [|c' rest]; [done|].
    exists (spec_block label c +:+ nl +:+ nl +:+ before), after.
    change (spec_blocks label (c :: c' :: rest))
      with (spec_block label c +:+ nl +:+ nl
            +:+ spec_blocks (S label) (c' :: rest)).
    rewrite Hrest. replace (label + S j)%nat with (S label + j)%nat by lia.
    by rewrite !str_app_assoc.
Qed.

(** C4: for a non-empty list of [k] filtered candidates the request is
    the fixed system message and one user message, whose body is the
    header naming [k], then one block per candidate in the order given,
    labelled 1 to [k], with a blank line between two blocks, then the
    closing line; hence the body holds the block [<cand j+1> ...
    </cand j+1>] of every candidate [j]; for one candidate the blocks
    are the single block [<cand 1>...</cand 1>]; two different
    positions never get the same label. *)
Theorem synthesis_body_blocks (filtered : list string) (k : nat) :
  filtered ≠ [] →
  length filtered = k →
  ∃ body : string,
    build_synthesis_messages filtered
    = [Message "system" synthesis_system; Message "user" body]
    ∧ body
      = "You are given " +:+ str_of_nat k
        +:+ " candidate answers delimited by <cand i> tags." +:+ nl +:+ nl
        +:+ spec_blocks 1 filtered
        +:+ nl +:+ nl +:+ "Return the single best final answer."
    ∧ (∀ j txt, filtered !! j = Some txt →
         (j < k)%nat
         ∧ ∃ before after,
             body
             = before
               +:+ ("<cand " +:+ str_of_nat (j + 1) +:+ ">" +:+ nl +:+ txt
                    +:+ nl +:+ "</cand " +:+ str_of_nat (j + 1) +:+ ">")
               +:+ after)
    ∧ (∀ txt, filtered = [txt] →
         spec_blocks 1 filtered
         = "<cand 1>" +:+ nl +:+ txt +:+ nl +:+ "</cand 1>")
    ∧ (∀ i j, str_of_nat (i + 1) = str_of_nat (j + 1) → i = j).
Proof.
  intros _ Hk. eexists. split; [|split; [reflexivity|split; [|split]]].
  - unfold build_synthesis_messages.
    rewrite (imap_ext cand_block (λ i, cand_block (0 + i))) by done.
    by rewrite join_blocks, Hk.
  - intros j txt Hj. split.
    { apply lookup_lt_Some in Hj. by rewrite Hk in Hj. }
    destruct (spec_blocks_holds filtered 1 j txt Hj)
      as (before & after & Hblocks).
    rewrite Hblocks. replace (1 + j)%nat with (j + 1)%nat by lia.
    exists ("You are given " +:+ str_of_nat k
            +:+ " candidate answers delimited by <cand i> tags."
            +:+ nl +:+ nl +:+ before),
           (after +:+ nl +:+ nl +:+ "Return the single best final answer.").
    unfold spec_block. by rewrite !str_app_assoc.
  - by intros txt ->.
  - intros i j Heq%(inj pretty). lia.
Qed.

Lemma synthesis_body_blocks_witness :
  ∃ body : string,
    build_synthesis_messages ["A"; "B"]
    = [Message "system" synthesis_system; Message "user" body]
    ∧ body
      = "You are given " +:+ str_of_nat 2
        +:+ " candidate answers delimited by <cand i> tags." +:+ nl +:+ nl
        +:+ spec_blocks 1 ["A"; "B"]
        +:+ nl +:+ nl +:+ "Return the single best final answer."
    ∧ (∀ j txt, ["A"; "B"] !! j = Some txt →
         (j < 2)%nat
         ∧ ∃ before after,
             body
             = before
               +:+ ("<cand " +:+ str_of_nat (j + 1) +:+ ">" +:+ nl +:+ txt
                    +:+ nl +:+ "</cand " +:+ str_of_nat (j + 1) +:+ ">")
               +:+ after)
    ∧ (∀ txt, ["A"; "B"] = [txt] →
         spec_blocks 1 ["A"; "B"]
         = "<cand 1>" +:+ nl +:+ txt +:+ nl +:+ "</cand 1>")
    ∧ (∀ i j, str_of_nat (i + 1) = str_of_nat (j + 1) → i = j).
Proof. apply (synthesis_body_blocks ["A"; "B"] 2); [discriminate|reflexivity]. Defined.

(** Two candidates: the body in full. *)
Example two_blocks_body :
  content <$> build_synthesis_messages ["A"; "B"] !! 1%nat
  = Some ("You are given 2 candidate answers delimited by <cand i> tags."
          +:+ nl +:+ nl
          +:+ "<cand 1>" +:+ nl +:+ "A" +:+ nl +:+ "</cand 1>" +:+ nl +:+ nl
          +:+ "<cand 2>" +:+ nl +:+ "B" +:+ nl +:+ "</cand 2>" +:+ nl +:+ nl
          +:+ "Return the single best final answer.").
Proof. by vm_compute. Qed.

Example three_blocks_of_five :
  (λ ev, match ev with
         | Send _ r => content <$> req_messages r !! 1%nat
         | Sleep _ => None
         end)
  <$> synth_log (snd (run (init None None two_down_backend) lifo "p" 5))
  = [Some ("You are given 3 candidate answers delimited by <cand i> tags."
           +:+ nl +:+ nl
           +:+ "<cand 1>" +:+ nl +:+ "A" +:+ nl +:+ "</cand 1>" +:+ nl +:+ nl
           +:+ "<cand 2>" +:+ nl +:+ "B" +:+ nl +:+ "</cand 2>" +:+ nl +:+ nl
           +:+ "<cand 3>" +:+ nl +:+ "C" +:+ nl +:+ "</cand 3>" +:+ nl +:+ nl
           +:+ "Return the single best final answer.")].
Proof. by vm_compute. Qed.


(** * Further properties of the code *)

(** ** The requests of a run *)

Lemma unit_logs_of_length self prompt n :
  length (unit_logs_of self prompt n) = n.
Proof.
  unfold unit_logs_of, fut_to_idx. by rewrite !length_fmap, length_seq.
Qed.

Lemma unit_logs_of_elem self prompt n l :
  l ∈ unit_logs_of self prompt n →
  ∃ i, (i < n)%nat ∧ l = snd (one_completion self i prompt 0.9).
Proof.
  unfold unit_logs_of, fut_to_idx. rewrite <- list_fmap_compose.
  intros (i & -> & Hi%elem_of_seq)%list_elem_of_fmap.
  exists i. split; [lia|done].
Qed.

(** The logs of a run: one per unit, and at most one synthesis request,
    built from the candidates that pass the filter. *)
Lemma run_logs self ex prompt n_runs :
  let fx := snd (run self ex prompt n_runs) in
  let input := synthesis_input self ex prompt n_runs in
  unit_logs fx = unit_logs_of self prompt (Z.to_nat n_runs)
  ∧ (synth_log fx = []
     ∨ (1 ≤ n_runs ∧ input ≠ []
        ∧ synth_log fx = [Send SynthesisCall (synthesis_request self input)])).
Proof.
  intros fx input. unfold fx, input, synthesis_input.
  destruct (run_cases self ex prompt n_runs)
    as [(Hn & H)|[(_ & _ & H)|[(Hn & Hne & err & _ & H)|(Hn & Hne & text & _ & H)]]];
    rewrite H; cbn [snd unit_logs synth_log].
  - split; [|by left]. by replace (Z.to_nat n_runs) with 0%nat by lia.
  - split; [done|by left].
  - split; [done|by right].
  - split; [done|by right].
Qed.

Lemma unit_send_request self prompt n l site r :
  l ∈ unit_logs_of self prompt n → Send site r ∈ l →
  r = completion_request self prompt 0.9.
Proof.
  intros (i & _ & ->)%unit_logs_of_elem Hin.
  pose proof (one_completion_log_shape self i prompt 0.9) as (_ & _ & _ & _ & Hs).
  by destruct (Hs site r Hin) as (-> & _).
Qed.

(** X1: every request a run sends, for a candidate or for the synthesis,
    names the model the object was built with ([MODEL] when the name
    given is [None] or empty), with [max_tokens] 30000, [top_p] 1 and no
    streaming; it is either the user prompt alone at temperature 0.9 or
    the fixed system instruction followed by one user message at
    temperature 0.2. *)
Theorem run_requests_configured model_name url service ex prompt n_runs r :
  r ∈ requests_of (snd (run (init model_name url service) ex prompt n_runs)) →
  (req_model r = match model_name with
                 | Some (String c m) => String c m
                 | _ => MODEL
                 end)
  ∧ req_max_tokens r = 30000
  ∧ req_top_p r = 1
  ∧ req_stream r = false
  ∧ ((req_messages r = [Message "user" prompt] ∧ req_temperature r = 0.9%Q)
     ∨ (∃ body, req_messages r
                = [Message "system" synthesis_system; Message "user" body]
                ∧ req_temperature r = 0.2%Q)).
Proof.
  set (self := init model_name url service).
  assert (model self = match model_name with
                       | Some (String c m) => String c m
                       | _ => MODEL
                       end) as Hmodel by (by destruct model_name as [[|c m]|]).
  unfold requests_of. intros (ev & Hev & Hr)%list_elem_of_omap.
  destruct ev as [site r'|d]; [|done]. injection Hr as ->.
  destruct (run_logs self ex prompt n_runs) as [Hu Hs]. cbn zeta in Hu, Hs.
  apply elem_of_app in Hev as [Hev|Hev].
  - apply list_elem_of_In, in_concat in Hev as (l & Hl & Hin).
    apply list_elem_of_In in Hl, Hin. rewrite Hu in Hl.
    rewrite (unit_send_request self prompt _ l site r Hl Hin).
    unfold completion_request; cbn [req_model req_max_tokens req_top_p
      req_stream req_messages req_temperature].
    rewrite Hmodel. repeat split; try done. by left.
  - destruct Hs as [Hs|(_ & _ & Hs)]; rewrite Hs in Hev.
    + by apply elem_of_nil in Hev.
    + apply list_elem_of_singleton in Hev. injection Hev as _ ->.
      unfold synthesis_request; cbn [req_model req_max_tokens req_top_p
        req_stream req_messages req_temperature].
      rewrite Hmodel. repeat split; try done. right.
      unfold build_synthesis_messages. eauto.
Qed.

Lemma run_requests_configured_witness :
  req_model (completion_request scenario "p" 0.9) = MODEL
  ∧ req_max_tokens (completion_request scenario "p" 0.9) = 30000
  ∧ req_top_p (completion_request scenario "p" 0.9) = 1
  ∧ req_stream (completion_request scenario "p" 0.9) = false
  ∧ ((req_messages (completion_request scenario "p" 0.9)
      = [Message "user" "p"]
      ∧ req_temperature (completion_request scenario "p" 0.9) = 0.9%Q)
     ∨ (∃ body, req_messages (completion_request scenario "p" 0.9)
                = [Message "system" synthesis_system; Message "user" body]
                ∧ req_temperature (completion_request scenario "p" 0.9)
                  = 0.2%Q)).
Proof.
  apply (run_requests_configured None None scenario_backend lifo "p" 3
           (completion_request scenario "p" 0.9)).
  vm_compute. by left.
Defined.

(** ** The cost of a run *)

Lemma sum_list_with_bounds {A} (f : A → nat) (lo hi : nat) (l : list A) :
  Forall (λ x, (lo ≤ f x ≤ hi)%nat) l →
  (lo * length l ≤ sum_list_with f l ≤ hi * length l)%nat.
Proof.
  induction 1 as [|x l Hx _ IH]; cbn [sum_list_with length]; lia.
Qed.

Lemma one_completion_slept self i prompt temperature :
  (slept (snd (one_completion self i prompt temperature)) <= 1.5)%Q.
Proof.
  unfold one_completion.
  destruct (one_completion_exit_cases self i prompt temperature)
    as [(t & _ & ->)|[(e0 & t & _ & _ & ->)|[(e0 & e1 & t & _ & _ & _ & ->)
       |(e0 & e1 & e2 & _ & _ & _ & ->)]]];
    cbn [snd]; by vm_compute.
Qed.

(** X2: a run sends at most [3 * n_runs + 1] requests, and at least
    [n_runs] when [n_runs >= 1]; it sends none when [n_runs < 1]; no
    dispatch unit sleeps more than 1.5 seconds in all. *)
Theorem run_request_budget self ex prompt n_runs :
  let fx := snd (run self ex prompt n_runs) in
  (requests_sent fx ≤ 3 * Z.to_nat n_runs + 1)%nat
  ∧ (Z.to_nat n_runs ≤ requests_sent fx)%nat
  ∧ (n_runs < 1 → requests_sent fx = 0%nat)
  ∧ Forall (λ l, (slept l <= 1.5)%Q) (unit_logs fx).
Proof.
  intros fx. destruct (run_logs self ex prompt n_runs) as [Hu Hs].
  cbn zeta in Hu, Hs. fold fx in Hu, Hs. unfold requests_sent. rewrite Hu.
  assert (Forall (λ l, (1 ≤ attempts_made l ≤ 3)%nat)
            (unit_logs_of self prompt (Z.to_nat n_runs))) as Hall.
  { apply Forall_forall. intros l (i & _ & ->)%unit_logs_of_elem.
    by destruct (one_completion_log_shape self i prompt 0.9) as (? & _). }
  apply sum_list_with_bounds in Hall. rewrite unit_logs_of_length in Hall.
  assert (attempts_made (synth_log fx) ≤ 1)%nat as Hsynth.
  { destruct Hs as [->|(_ & _ & ->)]; cbn; lia. }
  split; [lia|]. split; [lia|]. split.
  - intros Hn. destruct Hs as [->|(? & _)]; [|lia].
    replace (Z.to_nat n_runs) with 0%nat by lia. done.
  - apply Forall_forall. intros l (i & _ & ->)%unit_logs_of_elem.
    apply one_completion_slept.
Qed.

(** ** When a run succeeds, and what the synthesis call is shown *)

Lemma synthesis_input_elem self ex prompt n_runs t :
  completes_each_once ex →
  t ∈ synthesis_input self ex prompt n_runs
  ↔ blank t = false
    ∧ ∃ i, (i < Z.to_nat n_runs)%nat
           ∧ fst (one_completion self i prompt 0.9) = Returns t.
Proof.
  intros Hord. unfold synthesis_input.
  rewrite list_elem_of_In, List.filter_In, <- list_elem_of_In, usable_blank.
  rewrite (dispatch_slots self prompt _ (Hord (Z.min n_runs 16))).
  rewrite list_elem_of_fmap. setoid_rewrite elem_of_seq. split.
  - intros [(i & -> & Hi) Hb]. apply negb_true_iff in Hb. split; [done|].
    exists i. split; [lia|]. revert Hb. unfold slot_text.
    by destruct (fst (one_completion self i prompt 0.9)).
  - intros [Hb (i & Hi & Ht)]. split; [|by rewrite Hb].
    exists i. split; [|lia]. unfold slot_text. by rewrite Ht.
Qed.

(** X3: [run] returns exactly when [n_runs >= 1], at least one unit
    returned a text that is not blank, and the synthesis call answered;
    the other units may all have failed.  The final text is then the
    answer of the synthesis call. *)
Theorem run_returns_iff self ex prompt n_runs :
  completes_each_once ex →
  let req := synthesis_request self (synthesis_input self ex prompt n_runs) in
  ((∃ res, fst (run self ex prompt n_runs) = Returns res)
   ↔ 1 ≤ n_runs
     ∧ (∃ i t, (i < Z.to_nat n_runs)%nat
               ∧ fst (one_completion self i prompt 0.9) = Returns t
               ∧ blank t = false)
     ∧ (∃ text, client self SynthesisCall req = Content text))
  ∧ (∀ res, fst (run self ex prompt n_runs) = Returns res →
       client self SynthesisCall req = Content (final res)).
Proof.
  intros Hord req.
  assert (synthesis_input self ex prompt n_runs ≠ []
          ↔ ∃ i t, (i < Z.to_nat n_runs)%nat
                   ∧ fst (one_completion self i prompt 0.9) = Returns t
                   ∧ blank t = false) as Hsome.
  { split.
    - destruct (synthesis_input self ex prompt n_runs) as [|t l] eqn:Hin; [done|].
      intros _. assert (t ∈ synthesis_input self ex prompt n_runs) as Ht
        by (rewrite Hin; left).
      apply synthesis_input_elem in Ht as (Hb & i & Hi & Hres); [|done].
      by exists i, t.
    - intros (i & t & Hi & Hres & Hb) Hnil.
      assert (t ∈ synthesis_input self ex prompt n_runs) as Ht
        by (apply synthesis_input_elem; eauto).
      rewrite Hnil in Ht. by apply elem_of_nil in Ht. }
  unfold req, synthesis_input in *.
  destruct (run_cases self ex prompt n_runs)
    as [(Hn & H)|[(Hn & Hnil & H)|[(Hn & Hne & err & Hc & H)
       |(Hn & Hne & text & Hc & H)]]];
    rewrite H; cbn [fst]; (split; [split|]).
  - by intros [? ?].
  - intros (? & _). lia.
  - done.
  - by intros [? ?].
  - intros (_ & Hex & _). by apply Hsome in Hex.
  - done.
  - by intros [? ?].
  - intros (_ & _ & text & Htext). congruence.
  - done.
  - intros _. split; [done|]. split; [by apply Hsome|by exists text].
  - intros _. by exists {| final := text;
      candidates := dispatch self (ex (Z.min n_runs 16)) prompt (Z.to_nat n_runs) |}.
  - intros res [= <-]. done.
Qed.

Lemma run_returns_iff_witness :
  let req := synthesis_request scenario (synthesis_input scenario lifo "p" 3) in
  ((∃ res, fst (run scenario lifo "p" 3) = Returns res)
   ↔ 1 ≤ 3
     ∧ (∃ i t, (i < Z.to_nat 3)%nat
               ∧ fst (one_completion scenario i "p" 0.9) = Returns t
               ∧ blank t = false)
     ∧ (∃ text, client scenario SynthesisCall req = Content text))
  ∧ (∀ res, fst (run scenario lifo "p" 3) = Returns res →
       client scenario SynthesisCall req = Content (final res)).
Proof.
  apply (run_returns_iff scenario lifo "p" 3). exact lifo_completes_each_once.
Defined.

(** X4: what the synthesis call is shown is never empty and never holds
    a blank text; it is the returned candidates with the blank ones taken
    out, in the order of the units, so at most [n_runs] texts; a text is
    in it exactly when it is not blank and some unit returned it.  Any
    synthesis request sent is built from this list. *)
Theorem synthesis_input_usable self ex prompt n_runs :
  completes_each_once ex →
  let cands := dispatch self (ex (Z.min n_runs 16)) prompt (Z.to_nat n_runs) in
  let input := synthesis_input self ex prompt n_runs in
  Forall (λ c, blank c = false) input
  ∧ sublist input cands
  ∧ (length input ≤ Z.to_nat n_runs)%nat
  ∧ (∀ t, t ∈ input
          ↔ blank t = false
            ∧ ∃ i, (i < Z.to_nat n_runs)%nat
                   ∧ fst (one_completion self i prompt 0.9) = Returns t)
  ∧ (∀ site r, Send site r ∈ synth_log (snd (run self ex prompt n_runs)) →
       input ≠ [] ∧ r = synthesis_request self input).
Proof.
  intros Hord cands input.
  assert (sublist input cands) as Hsub.
  { unfold input, synthesis_input. fold cands.
    induction cands as [|c l IH]; cbn [List.filter]; [constructor|].
    destruct (usable c); by constructor. }
  split; [|split; [done|split; [|split]]].
  - apply Forall_forall. intros t Ht.
    by apply synthesis_input_elem in Ht as [? _].
  - apply sublist_length in Hsub. unfold cands in Hsub.
    by rewrite dispatch_length in Hsub.
  - intros t. by apply synthesis_input_elem.
  - intros site r Hin.
    destruct (run_logs self ex prompt n_runs) as [_ [Hs|(_ & Hne & Hs)]];
      cbn zeta in Hs; rewrite Hs in Hin.
    + by apply elem_of_nil in Hin.
    + apply list_elem_of_singleton in Hin. by injection Hin as _ ->.
Qed.

Lemma synthesis_input_usable_witness :
  let cands := dispatch scenario (lifo (Z.min 3 16)) "p" (Z.to_nat 3) in
  let input := synthesis_input scenario lifo "p" 3 in
  Forall (λ c, blank c = false) input
  ∧ sublist input cands
  ∧ (length input ≤ Z.to_nat 3)%nat
  ∧ (∀ t, t ∈ input
          ↔ blank t = false
            ∧ ∃ i, (i < Z.to_nat 3)%nat
                   ∧ fst (one_completion scenario i "p" 0.9) = Returns t)
  ∧ (∀ site r, Send site r ∈ synth_log (snd (run scenario lifo "p" 3)) →
       input ≠ [] ∧ r = synthesis_request scenario input).
Proof.
  apply (synthesis_input_usable scenario lifo "p" 3).
  exact lifo_completes_each_once.
Defined.

(** ** The command line *)

Lemma show_candidates_spec (candidates : list string) (start : nat) :
  ∃ shown : list (nat * string),
    show_candidates start candidates = concat (candidate_lines <$> shown)
    ∧ shown.*2 = List.filter usable candidates
    ∧ StronglySorted lt shown.*1
    ∧ ∀ label c, (label, c) ∈ shown →
        (start ≤ label)%nat
        ∧ candidates !! (label - start)%nat = Some c
        ∧ usable c = true.
Proof.
  revert start. induction candidates as [|c rest IH]; intros start.
  { exists []. split; [done|]. split; [done|]. split; [constructor|].
    by intros ? ? ?%elem_of_nil. }
  destruct (IH (S start)) as (shown & Hout & Htexts & Hsorted & Hin).
  assert (∀ label c', (label, c') ∈ shown →
            (start ≤ label)%nat
            ∧ (c :: rest) !! (label - start)%nat = Some c'
            ∧ usable c' = true) as Hin'.
  { intros label c' Hl. destruct (Hin label c' Hl) as (Hle & Hlook & Hus).
    split; [lia|]. split; [|done].
    by replace (label - start)%nat with (S (label - S start)) by lia. }
  cbn [show_candidates List.filter]. destruct (usable c) eqn:Hc.
  - exists ((start, c) :: shown). rewrite !fmap_cons, concat_cons, Hout, Htexts.
    split; [done|]. split; [done|]. split.
    + constructor; [done|]. apply Forall_forall.
      intros label ((l & c') & -> & Hl)%list_elem_of_fmap.
      destruct (Hin l c' Hl) as (? & _). cbn. lia.
    + intros label c' [[= -> ->]|Hl]%elem_of_cons; [|by apply Hin'].
      by rewrite Nat.sub_diag.
  - exists shown. by rewrite Hout.
Qed.


(** A base URL the constructor refuses: its error is what [main]
    reports, also when the number of candidates is invalid. *)
Example main_invalid_port :
  let args := {| arg_prompt := "p"; arg_num_candidates := 0;
                 arg_model := MODEL; arg_url := "http://h:abc";
                 arg_show_candidates := false |} in
  main_stderr (main (port_checking scenario_backend) lifo args)
  = ["Error: Invalid port"]
  ∧ exit_code (main (port_checking scenario_backend) lifo args) = 1.
Proof. by vm_compute. Qed.

(** X6: when the client is made and the run returns, [main] without
    [--show-candidates] prints the banner and the final answer only.
    With it, it goes on with the candidates that are not blank, each
    under the number of its unit (from 1): the texts shown are those the
    synthesis call was shown, in the same order, the numbers increase,
    and each text is what the unit of that number returned. *)
Theorem main_shows_synthesis_input OpenAI service ex args res :
  let self := init (Some (arg_model args)) (Some (arg_url args)) service in
  let n := arg_num_candidates args in
  let answer := [nl +:+ str_mul "=" 50; "FINAL SYNTHESIZED ANSWER:";
                 str_mul "=" 50; final res] in
  make_client OpenAI (or_default (Some (arg_url args)) BASE_URL)
  = Connected service →
  completes_each_once ex →
  fst (run self ex (arg_prompt args) n) = Returns res →
  (arg_show_candidates args = false →
     main_stdout (main OpenAI ex args) = answer)
  ∧ (arg_show_candidates args = true →
     ∃ shown : list (nat * string),
       main_stdout (main OpenAI ex args)
       = (answer
          ++ [nl +:+ str_mul "=" 50; "CANDIDATE RESPONSES:"; str_mul "=" 50]
          ++ concat (candidate_lines <$> shown))%list
       ∧ shown.*2 = synthesis_input self ex (arg_prompt args) n
       ∧ StronglySorted lt shown.*1
       ∧ ∀ label c, (label, c) ∈ shown →
           (1 ≤ label ≤ Z.to_nat n)%nat
           ∧ fst (one_completion self (label - 1) (arg_prompt args) 0.9)
             = Returns c).
Proof.
  intros self n answer Hmade Hord Hrun. unfold main, construct.
  rewrite Hmade. fold self. fold n.
  destruct (run self ex (arg_prompt args) n) as [out fx] eqn:Hr.
  cbn [fst] in Hrun. subst out. cbn [main_stdout].
  split; intros ->; [by rewrite app_nil_r|].
  assert (candidates res
          = dispatch self (ex (Z.min n 16)) (arg_prompt args) (Z.to_nat n))
    as Hcands.
  { destruct (run_cases self ex (arg_prompt args) n)
      as [(_ & H)|[(_ & _ & H)|[(_ & _ & err & _ & H)|(_ & _ & text & _ & H)]]];
      rewrite H in Hr; by simplify_eq. }
  destruct (show_candidates_spec (candidates res) 1)
    as (shown & Hout & Htexts & Hsorted & Hin).
  exists shown. rewrite Hout. split; [done|]. split.
  { unfold synthesis_input. by rewrite <- Hcands. }
  split; [done|]. intros label c Hl.
  destruct (Hin label c Hl) as (Hle & Hlook & Hus).
  assert (label - 1 < Z.to_nat n)%nat as Hlt.
  { apply lookup_lt_Some in Hlook. by rewrite Hcands, dispatch_length in Hlook. }
  split; [lia|].
  rewrite Hcands, (dispatch_lookup self _ _ (Hord _)) in Hlook by done.
  injection Hlook as Hslot. revert Hslot Hus. unfold slot_text.
  destruct (fst (one_completion self (label - 1) (arg_prompt args) 0.9));
    [by intros ->|]. by intros <-.
Qed.

Example main_scenario :
  main_stdout (main (always scenario_backend) lifo scenario_args)
  = [nl +:+ str_mul "=" 50; "FINAL SYNTHESIZED ANSWER:"; str_mul "=" 50; "S";
     nl +:+ str_mul "=" 50; "CANDIDATE RESPONSES:"; str_mul "=" 50;
     nl +:+ "--- Candidate 1 ---"; "A"; nl +:+ "--- Candidate 3 ---"; "B"]
  ∧ exit_code (main (always scenario_backend) lifo scenario_args) = 0.
Proof. by vm_compute. Qed.

Lemma main_shows_synthesis_input_witness :
  let res := {| final := "S"; candidates := ["A"; ""; "B"] |} in
  let self := init (Some MODEL) (Some BASE_URL) scenario_backend in
  let answer := [nl +:+ str_mul "=" 50; "FINAL SYNTHESIZED ANSWER:";
                 str_mul "=" 50; final res] in
  (arg_show_candidates scenario_args = false →
     main_stdout (main (port_checking scenario_backend) lifo scenario_args)
     = answer)
  ∧ (arg_show_candidates scenario_args = true →
     ∃ shown : list (nat * string),
       main_stdout (main (port_checking scenario_backend) lifo scenario_args)
       = (answer
          ++ [nl +:+ str_mul "=" 50; "CANDIDATE RESPONSES:"; str_mul "=" 50]
          ++ concat (candidate_lines <$> shown))%list
       ∧ shown.*2 = synthesis_input self lifo "p" 3
       ∧ StronglySorted lt shown.*1
       ∧ ∀ label c, (label, c) ∈ shown →
           (1 ≤ label ≤ Z.to_nat 3)%nat
           ∧ fst (one_completion self (label - 1) "p" 0.9) = Returns c).
Proof.
  apply (main_shows_synthesis_input (port_checking scenario_backend)
           scenario_backend lifo scenario_args
           {| final := "S"; candidates := ["A"; ""; "B"] |}).
  - by vm_compute.
  - exact lifo_completes_each_once.
  - by vm_compute.
Defined.

(** ** The pool comes to rest *)

Lemma pool_progress self prompt cap s :
  (0 < cap)%nat →
  (queue s = [] ∧ running s = []) ∨ ∃ s', pool_step self prompt cap s s'.
Proof.
  intros Hcap. destruct s as [q ws fin]. cbn [queue running].
  destruct ws as [|[i c] ws].
  - destruct q as [|i q]; [by left|]. right. eexists. by apply step_start.
  - right. destruct c as [[|a rest] d|a rest d|rest d].
    + eexists. apply (step_trailing _ _ _ i d q [] ws fin).
    + eexists. apply (step_send _ _ _ i a rest d q [] ws fin).
    + destruct (client self (CandidateCall i a)
                  (completion_request self prompt 0.9%Q)) as [text|err] eqn:Hc.
      * eexists. by apply (step_content _ _ _ i a rest d text q [] ws fin).
      * destruct (decide (a = 2%nat)) as [Ha|Ha]; eexists.
        -- by apply (step_reraise _ _ _ i a rest d err q [] ws fin).
        -- by apply (step_retry _ _ _ i a rest d err q [] ws fin).
    + eexists. apply (step_wake _ _ _ i rest d q [] ws fin).
Qed.

Lemma pool_rest_stuck self prompt cap s s' :
  queue s = [] → running s = [] → ¬ pool_step self prompt cap s s'.
Proof.
  intros Hq Hr Hstep. destruct Hstep; cbn [queue running] in *;
    try discriminate Hq; symmetry in Hr; by apply app_cons_not_nil in Hr.
Qed.

Lemma pool_reaches_rest self prompt cap (m : nat) s :
  (0 < cap)%nat → (work_left s ≤ m)%nat →
  ∃ s', rtc (pool_step self prompt cap) s s'
        ∧ queue s' = [] ∧ running s' = [].
Proof.
  intros Hcap. revert s. induction m as [|m IH]; intros s Hm.
  - destruct (pool_progress self prompt cap s Hcap) as [[Hq Hr]|[s1 Hstep]].
    + exists s. by split; [apply rtc_refl|].
    + apply pool_step_work_left in Hstep. lia.
  - destruct (pool_progress self prompt cap s Hcap) as [[Hq Hr]|[s1 Hstep]].
    + exists s. by split; [apply rtc_refl|].
    + destruct (IH s1) as (s' & Hreach & Hrest).
      { apply pool_step_work_left in Hstep. lia. }
      exists s'. split; [by eapply rtc_l|done].
Qed.

(** The slots after dispatch, for an executor that is only known to
    complete every future of this run once. *)
Lemma dispatch_slots_at self prompt as_completed n :
  as_completed (fut_to_idx self prompt n) ≡ₚ fut_to_idx self prompt n →
  dispatch self as_completed prompt n
  = (λ i, slot_text (one_completion self i prompt 0.9)) <$> seq 0 n.
Proof.
  intros Hperm. apply list_eq. intros i. unfold dispatch.
  destruct (decide (i < n)%nat) as [Hi|Hi].
  - rewrite list_lookup_fmap, lookup_seq_lt by done. cbn.
    apply record_written.
    + rewrite Hperm, fut_to_idx_indices. apply NoDup_seq.
    + rewrite Hperm. unfold fut_to_idx.
      apply list_elem_of_fmap. exists i. split; [done|].
      apply elem_of_seq. lia.
    + by rewrite length_replicate.
  - rewrite !lookup_ge_None_2; [done|..].
    + rewrite length_fmap, length_seq. lia.
    + rewrite record_length, length_replicate. lia.
Qed.

Lemma completion_order_futures self prompt cap n s :
  (0 < cap)%nat →
  rtc (pool_step self prompt cap) (submitted n) s →
  (∀ s', ¬ pool_step self prompt cap s s') →
  completion_order self prompt s ≡ₚ fut_to_idx self prompt n.
Proof.
  intros Hcap Hreach Hstuck. unfold completion_order.
  rewrite reverse_Permutation.
  rewrite (pool_futures self prompt cap n s Hcap Hreach Hstuck).
  rewrite <- list_fmap_compose.
  match goal with
  | |- ?f <$> ?l ≡ₚ _ => assert (f <$> l = l) as ->; [|done]
  end.
  rewrite <- (list_fmap_id (fut_to_idx self prompt n)) at 2.
  apply list_fmap_ext. intros k entry Hk. unfold fut_to_idx in Hk.
  rewrite list_lookup_fmap in Hk.
  destruct (seq 0 n !! k) as [i|]; [|done]. injection Hk as <-.
  cbn. by destruct (one_completion self i prompt 0.9).
Qed.

(** X7: with the pool as the specification describes it and any number
    of execution units (at least one), the [n_runs] submitted units can
    always be run until no step is left; wherever the pool stops, the
    queue is empty, nothing is running and every unit has finished
    exactly once with the outcome of [_one_completion]; and [run], given
    the futures in the order the pool finished them, returns what it
    returns for any other completion order. *)
Theorem pool_comes_to_rest self ex prompt n_runs (workers : nat) :
  1 ≤ n_runs →
  (0 < workers)%nat →
  completes_each_once ex →
  let step := pool_step self prompt workers in
  let start := submitted (Z.to_nat n_runs) in
  (∃ s, rtc step start s ∧ ∀ s', ¬ step s s')
  ∧ (∀ s, rtc step start s → (∀ s', ¬ step s s') →
       queue s = [] ∧ running s = []
       ∧ completion_order self prompt s
         ≡ₚ fut_to_idx self prompt (Z.to_nat n_runs)
       ∧ run self (replay self prompt s) prompt n_runs
         = run self ex prompt n_runs).
Proof.
  intros Hn Hcap Hord step start. unfold step, start. split.
  - destruct (pool_reaches_rest self prompt workers _
                (submitted (Z.to_nat n_runs)) Hcap (le_n _))
      as (s & Hreach & Hq & Hr).
    exists s. split; [done|]. intros s'. by apply pool_rest_stuck.
  - intros s Hreach Hstuck.
    destruct (pool_stuck_finished self prompt _ s Hcap Hstuck) as [Hq Hr].
    pose proof (completion_order_futures self prompt workers _ s
                  Hcap Hreach Hstuck) as Hperm.
    split; [done|]. split; [done|]. split; [done|].
    unfold run.
    rewrite (dispatch_slots_at self prompt (replay self prompt s _)) by done.
    by rewrite (dispatch_slots self prompt _ (Hord (Z.min n_runs 16))).
Qed.

Lemma pool_comes_to_rest_witness :
  let step := pool_step scenario "p" 2 in
  let start := submitted (Z.to_nat 3) in
  (∃ s, rtc step start s ∧ ∀ s', ¬ step s s')
  ∧ (∀ s, rtc step start s → (∀ s', ¬ step s s') →
       queue s = [] ∧ running s = []
       ∧ completion_order scenario "p" s
         ≡ₚ fut_to_idx scenario "p" (Z.to_nat 3)
       ∧ run scenario (replay scenario "p" s) "p" 3
         = run scenario lifo "p" 3).
Proof.
  apply (pool_comes_to_rest scenario lifo "p" 3 2).
  - lia.
  - lia.
  - exact lifo_completes_each_once.
Defined.

(** ** The candidate preview *)

Lemma substring_head (k : nat) (s : string) :
  (k ≤ String.length s)%nat →
  String.length (String.substring 0 k s) = k
  ∧ ∃ rest, s = String.substring 0 k s +:+ rest.
Proof.
  revert s. induction k as [|k IH]; intros s Hk.
  - destruct s; split; try done; eexists; reflexivity.
  - destruct s as [|c s]; [cbn in Hk; lia|].
    destruct (IH s) as (Hlen & rest & Hrest); [cbn in Hk; lia|].
    split; [simpl; by rewrite Hlen|].
    exists rest. simpl.
    change (String c s = String c (String.substring 0 k s +:+ rest)).
    by rewrite <- Hrest.
Qed.

Lemma length_append (s t : string) :
  String.length (s +:+ t) = (String.length s + String.length t)%nat.
Proof.
  induction s as [|c s IH]; [done|].
  change (S (String.length (s +:+ t))
          = S (String.length s + String.length t)).
  by rewrite IH.
Qed.

(** X8: the preview of a candidate is never longer than 503 characters;
    a candidate of at most 500 characters is its own preview; a longer one
    is cut to its first 500 characters, followed by three dots. *)
Theorem candidate_preview_bounds (candidate : string) :
  (String.length (candidate_preview candidate) ≤ 503)%nat
  ∧ ((String.length candidate ≤ 500)%nat →
     candidate_preview candidate = candidate)
  ∧ ((500 < String.length candidate)%nat →
     ∃ head rest, candidate = head +:+ rest
       ∧ String.length head = 500%nat
       ∧ candidate_preview candidate = head +:+ "..."
       ∧ String.length (candidate_preview candidate) = 503%nat).
Proof.
  unfold candidate_preview.
  destruct (Nat.ltb_spec 500 (String.length candidate)) as [Hlong|Hshort].
  - destruct (substring_head 500 candidate) as (Hlen & rest & Hrest); [lia|].
    assert (String.length (String.substring 0 500 candidate +:+ "...")
            = 503%nat) as Htotal.
    { rewrite length_append, Hlen. reflexivity. }
    split; [lia|]. split; [lia|]. intros _.
    exists (String.substring 0 500 candidate), rest. done.
  - split; [lia|]. split; [done|lia].
Qed.
